(** * Graylog input plugin: a shallow embedding of [graylog.go]

    The development follows plugins/inputs/graylog/graylog.go: the
    recursive [flatten] over decoded JSON documents, the request
    construction and response handling of [sendRequest], the per-endpoint
    [gatherServer] and the fan-out of [Gather] over goroutines. *)

From Stdlib Require Import ZArith String Ascii List SpecFloat.
From stdpp Require Import base tactics option list strings gmap fin_maps pretty relations.

Local Open Scope Z_scope.

(** ** Values held in a Go [interface{}] *)

(** A [float64] is kept as the IEEE-754 value it denotes. *)
Definition float64 : Type := spec_float.

(** The dynamic types [flatten] can meet in a [map[string]interface{}].
    A Go map has no iteration order, and every [range] loop over it draws
    an order of its own: a list of entries stands for the map as one loop
    happens to visit it. A statement about one call holds for every such
    list; a statement about two calls on the same map takes two lists, one
    per call, with the same leaves. *)
#[local] Unset Elimination Schemes.
Inductive value : Type :=
| VInt (n : Z)
| VFloat (f : float64)
| VMap (m : list (string * value))
| VString (s : string)
| VBool (b : bool)
| VList (l : list value)
| VNil.
#[local] Set Elimination Schemes.

Abbreviation gomap := (list (string * value)).

(** Result of running code that may panic. *)
Inductive outcome (A : Type) : Type :=
| Done (a : A)
| Panic (msg : string).
Arguments Done {A} a.
Arguments Panic {A} msg.

#[global] Instance outcome_ret : MRet outcome := fun A a => Done a.
#[global] Instance outcome_bind : MBind outcome := fun A B k o =>
  match o with
  | Done a => k a
  | Panic msg => Panic msg
  end.

Module Flatten.

(** [id = id + "_"] when [id != ""]. *)
Definition with_sep (id : string) : string :=
  if decide (id = "") then id else id +:+ "_".

(** [for k, i := range item { ... }] with the loop body [body]. *)
Fixpoint range (body : string -> value -> gmap string value -> outcome (gmap string value))
    (item : gomap) (fields : gmap string value) : outcome (gmap string value) :=
  match item with
  | [] => Done fields
  | (k, i) :: rest => fields' ← body k i fields; range body rest fields'
  end.

(** The type switch of the loop body on the entry stored under the full
    key [key = id+k]. The assertion [i.(float64)] on a value of dynamic
    type [int] panics. *)
Fixpoint switch (i : value) (fields : gmap string value) (key : string)
    : outcome (gmap string value) :=
  match i with
  | VInt _ =>
      Panic "interface conversion: interface {} is int, not float64"
  | VFloat f => Done (<[key := VFloat f]> fields)
  | VMap m =>
      (fix loop (item : gomap) (fields : gmap string value) :=
         match item with
         | [] => Done fields
         | (k, i) :: rest =>
             fields' ← switch i fields (with_sep key +:+ k); loop rest fields'
         end) m fields
  | _ => Done fields
  end.

(** [func (h *GrayLog) flatten(item, fields, id)]. *)
Definition flatten (item : gomap) (fields : gmap string value) (id : string)
    : outcome (gmap string value) :=
  let id := with_sep id in
  range (fun k i fields => switch i fields (id +:+ k)) item fields.

End Flatten.

(** ** Induction over nested values *)

Section value_ind.
Variable P : value -> Prop.
Hypothesis Hint_ : forall n, P (VInt n).
Hypothesis Hfloat : forall f, P (VFloat f).
Hypothesis Hmap : forall m, Forall (fun kv => P kv.2) m -> P (VMap m).
Hypothesis Hstring : forall s, P (VString s).
Hypothesis Hbool : forall b, P (VBool b).
Hypothesis Hlist : forall l, P (VList l).
Hypothesis Hnil : P VNil.

Fixpoint value_ind (v : value) : P v :=
  match v with
  | VInt n => Hint_ n
  | VFloat f => Hfloat f
  | VMap m =>
      Hmap m ((fix all (m : gomap) : Forall (fun kv => P kv.2) m :=
                 match m with
                 | [] => List.Forall_nil _
                 | kv :: rest => List.Forall_cons _ kv rest (value_ind kv.2) (all rest)
                 end) m)
  | VString s => Hstring s
  | VBool b => Hbool b
  | VList l => Hlist l
  | VNil => Hnil
  end.
End value_ind.

Module FlattenSpec.
Import Flatten.

(** The paths from a value down to its numeric leaves, in the order the
    loops visit them. *)
Fixpoint leaves_of (i : value) : list (list string * value) :=
  match i with
  | VInt n => [([], VInt n)]
  | VFloat f => [([], VFloat f)]
  | VMap m =>
      (fix go (item : gomap) :=
         match item with
         | [] => []
         | (k, i) :: rest => map (prod_map (cons k) (fun v => v)) (leaves_of i) ++ go rest
         end) m
  | _ => []
  end.

Definition leaves (item : gomap) : list (list string * value) :=
  leaves_of (VMap item).

(** The underscore-joined path of mapping keys. *)
Definition join_path (path : list string) : string := String.concat "_" path.

(** No [int] is stored as a value of the mapping or of a mapping nested
    in it, at any depth. Lists are not looked into: [flatten] drops a list
    whole, whatever it holds. This is the case of every mapping that
    encoding/json decodes into an [interface{}] (numbers become
    [float64]). *)
Fixpoint int_free (i : value) : bool :=
  match i with
  | VInt _ => false
  | VMap m =>
      (fix go (item : gomap) :=
         match item with
         | [] => true
         | (_, i) :: rest => int_free i && go rest
         end) m
  | _ => true
  end.

Definition is_float (i : value) : bool :=
  match i with VFloat _ => true | _ => false end.

Definition is_map (i : value) : bool :=
  match i with VMap _ => true | _ => false end.

(** A flat mapping: no value is itself a mapping. *)
Definition flat (item : gomap) : bool := forallb (fun kv => negb (is_map kv.2)) item.

(** No nested mapping sits under the empty key at the top level. *)
Definition top_keys_named (item : gomap) : bool :=
  forallb (fun kv => negb (is_map kv.2) || negb (String.eqb kv.1 "")) item.

(** The key a leaf reached through [path] below the entry stored under
    [key] is written to. *)
Fixpoint key_of (key : string) (path : list string) : string :=
  match path with
  | [] => key
  | k :: rest => key_of (with_sep key +:+ k) rest
  end.

(** The writes [switch] performs, in order. *)
Definition writes (i : value) (key : string) : list (string * value) :=
  map (fun pv => (key_of key pv.1, pv.2)) (leaves_of i).

Definition store (fields : gmap string value) (ws : list (string * value))
    : gmap string value :=
  foldl (fun m kv => <[kv.1 := kv.2]> m) fields ws.

(** What it means for [flatten], called with an empty prefix on a fresh
    output mapping, to keep every numeric leaf under its underscore-joined
    path and to store nothing else. *)
Definition keeps_every_leaf (item : gomap) : Prop :=
  exists out, flatten item ∅ "" = Done out /\
    (forall path v, (path, v) ∈ leaves item -> out !! join_path path = Some v) /\
    (forall k v, out !! k = Some v ->
       is_float v = true /\ exists path, (path, v) ∈ leaves item /\ join_path path = k).

(** [v] is the value of the leaf visited last among the leaves of [ls]
    whose joined path is [k]. *)
Definition last_leaf (k : string) (v : value) (ls : list (list string * value)) : Prop :=
  exists before path after,
    ls = before ++ (path, v) :: after /\ join_path path = k /\
    Forall (fun pv => join_path pv.1 <> k) after.

(** The same, with last-write-wins on colliding keys: the output holds
    [v] under [k] exactly when [v] is the value of the last leaf visited
    among those whose joined path is [k]; and it holds floats only. *)
Definition keeps_last_leaves (item : gomap) : Prop :=
  exists out, flatten item ∅ "" = Done out /\
    (forall k v, out !! k = Some v <-> last_leaf k v (leaves item)) /\
    (forall k v, out !! k = Some v -> is_float v = true).

(** The value written last under [k] by the writes [ws], if any. *)
Fixpoint last_write (k : string) (ws : list (string * value)) : option value :=
  match ws with
  | [] => None
  | (k', v) :: ws =>
      match last_write k ws with
      | Some v' => Some v'
      | None => if decide (k' = k) then Some v else None
      end
  end.

(** Sample documents. *)
Definition f_one : float64 := S754_finite false 1 0.
Definition f_two : float64 := S754_finite false 1 1.
Definition f_two_and_half : float64 := S754_finite false 5 (-1).

(** [{"a": {"b": 1.0}, "a_b": 2.0}], visited in either order. *)
Definition colliding : gomap :=
  [("a", VMap [("b", VFloat f_one)]); ("a_b", VFloat f_two)].
Definition colliding' : gomap :=
  [("a_b", VFloat f_two); ("a", VMap [("b", VFloat f_one)])].

(** [{"x": 1, "y": {"z": 2.5}}] as encoding/json decodes it. *)
Definition sample_fields : gomap :=
  [("x", VFloat f_one); ("y", VMap [("z", VFloat f_two_and_half)])].

(** The same document visited in the other order. *)
Definition sample_fields' : gomap :=
  [("y", VMap [("z", VFloat f_two_and_half)]); ("x", VFloat f_one)].

(** The key [k] below the prefix [id]. *)
Definition prefixed (id k : string) : string := (id +:+ "_") +:+ k.

(** [{"": {"x": 1.0}}]: a nested mapping under the empty key. *)
Definition unnamed_parent : gomap := [("", VMap [("x", VFloat f_one)])].

(** [{"s": "up"}]: a flat mapping holding a string. *)
Definition flat_with_string : gomap := [("s", VString "up")].

(** [{"x": 1.0, "y": 2.5}]. *)
Definition flat_floats : gomap := [("x", VFloat f_one); ("y", VFloat f_two_and_half)].

(** [map[string]interface{}{"n": 7}] built in Go with an [int]. *)
Definition with_int : gomap := [("n", VInt 7)].

End FlattenSpec.

(** ** The plugin and the library functions it calls *)

Module Graylog.
Import Flatten.

(** An [error] is kept as the message [err.Error()] returns. *)
Definition error : Type := string.

(** The double quote character, escaped in the Go format strings. *)
Definition dq : string := String (ascii_of_nat 34) EmptyString.

(** [*url.URL], as far as the plugin looks at it: the authority
    [requestURL.Host] and the text [requestURL.String()]. *)
Record URL : Type := { Host : string; URL_String : string }.

(** [*http.Request] as built by [http.NewRequest] and [req.Header.Add]. *)
Record Request : Type := {
  Method : string;
  RequestURL : string;
  RequestBody : string;
  Header : gmap string (list string)
}.

(** [*http.Response]: the status code, and what [ioutil.ReadAll(resp.Body)]
    returns for its body (the bytes read, and the read error if any). *)
Record Response : Type := {
  StatusCode : Z;
  Body : string * option error
}.

Inductive tls_Config : Type :=
| TLSConfig (cert key ca : string) (insecure : bool).

(** [*http.Client] with its [http.Transport]; durations in seconds. *)
Record http_Client : Type := {
  ResponseHeaderTimeout : Z;
  TLSClientConfig : option tls_Config;
  Timeout : Z
}.

(** [type HTTPClient interface]: [MakeRequest] either answers or fails;
    [HTTPClient()] is the configured [*http.Client], [nil] until
    [SetHTTPClient] is called. The answer of the transport is taken as a
    function of the request. *)
Record HTTPClient : Type := {
  MakeRequest : Request -> Response + error;
  HTTPClient_get : option http_Client
}.

Definition SetHTTPClient (c : HTTPClient) (client : http_Client) : HTTPClient :=
  {| MakeRequest := MakeRequest c; HTTPClient_get := Some client |}.

(** [type Metric struct] and [type ResponseMetrics struct]. *)
Record Metric : Type := {
  FullName : string;
  Name : string;
  Type_ : string;
  Fields : gomap
}.

Record ResponseMetrics : Type := { ResponseMetrics_Metrics : list Metric }.

(** A [[]string] field: [None] is the nil slice a field has when nothing
    was configured, [Some l] a slice with the elements of [l]. *)
Abbreviation strings_slice := (option (list string)).

(** [type Messagebody struct]. *)
Record Messagebody : Type := { Messagebody_Metrics : strings_slice }.

(** [type GrayLog struct]. *)
Record GrayLog : Type := {
  Servers : list string;
  Metrics : strings_slice;
  Username : string;
  Password : string;
  SSLCA : string;
  SSLCert : string;
  SSLKey : string;
  InsecureSkipVerify : bool;
  client : HTTPClient
}.

(** One call [acc.AddFields(measurement, fields, tags)]. *)
Record point : Type := {
  measurement : string;
  point_fields : gmap string value;
  point_tags : gmap string string
}.

(** The accumulator is the sequence of points added so far. *)
Abbreviation Accumulator := (list point).

(** [encoding/base64]: the standard and the URL-safe alphabet of RFC 4648,
    both with padding. *)
Definition encodeStd : string :=
  "ABCDEFGHIJKLMNOPQRSTUVWXYZabcdefghijklmnopqrstuvwxyz0123456789+/".
Definition encodeURL : string :=
  "ABCDEFGHIJKLMNOPQRSTUVWXYZabcdefghijklmnopqrstuvwxyz0123456789-_".

Definition sextet (alphabet : string) (n : N) : ascii :=
  default "="%char (String.get (N.to_nat n) alphabet).

Fixpoint encode (alphabet : string) (src : list N) : string :=
  match src with
  | [] => ""
  | [a] =>
      String (sextet alphabet (N.shiftr a 2))
        (String (sextet alphabet (N.shiftl (N.land a 3) 4)) "==")
  | [a; b] =>
      String (sextet alphabet (N.shiftr a 2))
        (String (sextet alphabet (N.lor (N.shiftl (N.land a 3) 4) (N.shiftr b 4)))
           (String (sextet alphabet (N.shiftl (N.land b 15) 2)) "="))
  | a :: b :: c :: rest =>
      String (sextet alphabet (N.shiftr a 2))
        (String (sextet alphabet (N.lor (N.shiftl (N.land a 3) 4) (N.shiftr b 4)))
           (String (sextet alphabet (N.lor (N.shiftl (N.land b 15) 2) (N.shiftr c 6)))
              (String (sextet alphabet (N.land c 63)) (encode alphabet rest))))
  end.

Definition EncodeToString (alphabet s : string) : string :=
  encode alphabet (map N_of_ascii (list_ascii_of_string s)).

(** [base64.StdEncoding.EncodeToString] and
    [base64.URLEncoding.EncodeToString]. *)
Definition base64_StdEncoding_EncodeToString : string -> string :=
  EncodeToString encodeStd.
Definition base64_URLEncoding_EncodeToString : string -> string :=
  EncodeToString encodeURL.

(** Letters, digits, dot, underscore and hyphen. *)
Definition plain_char (c : ascii) : bool :=
  let n := nat_of_ascii c in
  ((65 <=? n) && (n <=? 90) || (97 <=? n) && (n <=? 122) || (48 <=? n) && (n <=? 57)
   || (n =? 46) || (n =? 95) || (n =? 45))%nat.

Definition plain (s : string) : bool := forallb plain_char (list_ascii_of_string s).

(** The functions of the Go standard library, and of telegraf's [internal]
    package, that the plugin calls. *)
Class GoLib : Type := {
  (** [url.Parse]: the [*URL] ([None] is [nil]) and the error. *)
  url_Parse : string -> option URL * option error;
  (** [net.SplitHostPort]. *)
  net_SplitHostPort : string -> string * string * option error;
  (** [json.Unmarshal([]byte(resp), &dat)]: [dat] afterwards, and the error. *)
  json_Unmarshal : string -> ResponseMetrics * option error;
  (** The JSON string literal [json.Marshal] writes for a Go string. *)
  json_string : string -> string;
  (** [http.StatusText]. *)
  http_StatusText : Z -> string;
  (** [time.Since(start).Seconds()] for the exchange of a request. *)
  elapsed_Seconds : Request -> float64;
  (** [internal.GetTLSConfig], of telegraf's [internal] package: the
      configuration ([None] is [nil]) and the error. *)
  GetTLSConfig : string -> string -> string -> bool -> option tls_Config * option error;
  (** [url.Parse] returns a URL or an error. *)
  url_Parse_nil : forall rawurl,
    (url_Parse rawurl).1 = None -> (url_Parse rawurl).2 <> None;
  (** A string of letters, digits, dots, underscores and hyphens is
      written between double quotes as it is. *)
  json_string_plain : forall s,
    plain s = true -> json_string s = dq +:+ s +:+ dq;
  (** [json.Unmarshal] stores a JSON number in an [interface{}] as a
      [float64], never as an [int]. *)
  json_Unmarshal_float64 : forall data,
    Forall (fun m_item => FlattenSpec.int_free (VMap (Fields m_item)) = true)
           (ResponseMetrics_Metrics (json_Unmarshal data).1)
}.

Definition http_StatusOK : Z := 200.

(** [float64(-1)]. *)
Definition minus_one : float64 := S754_finite true 1 0.

(** [strings.Contains]. *)
Fixpoint strings_Contains (s substr : string) : bool :=
  String.prefix substr s ||
  match s with
  | EmptyString => false
  | String _ s' => strings_Contains s' substr
  end.

(** [strings.Join]. *)
Fixpoint strings_Join (elems : list string) (sep : string) : string :=
  match elems with
  | [] => ""
  | [e] => e
  | e :: rest => e +:+ sep +:+ strings_Join rest sep
  end.

(** [req.Header.Add(k, v)]; the keys used are in canonical form already. *)
Definition Header_Add (k v : string) (hdr : gmap string (list string))
    : gmap string (list string) :=
  <[k := default [] (hdr !! k) ++ [v]]> hdr.

(** [for k, v := range headers { req.Header.Add(k, v) }], visiting the
    entries in the order of [entries]. *)
Definition add_headers (entries : list (string * string))
    (hdr : gmap string (list string)) : gmap string (list string) :=
  foldl (fun hdr kv => Header_Add kv.1 kv.2 hdr) hdr entries.

Section plugin.
Context `{GoLib}.

(** The JSON object with the one key metrics bound to the array of the
    [names], and the one with that key bound to null. *)
Definition metrics_object (names : list string) : string :=
  "{" +:+ dq +:+ "metrics" +:+ dq +:+ ":[" +:+
  strings_Join (json_string <$> names) "," +:+ "]}".

Definition null_object : string := "{" +:+ dq +:+ "metrics" +:+ dq +:+ ":null}".

(** [json.Marshal(m)] for a [*Messagebody]: a nil slice is written as
    null, any other slice as the array of its elements. Marshalling this
    type does not fail. *)
Definition json_Marshal (m : Messagebody) : string * option error :=
  (match Messagebody_Metrics m with
   | None => null_object
   | Some names => metrics_object names
   end, None).

(** [http.NewRequest(method, urlStr, body)] for a valid method: the URL
    text is parsed, and the request comes with an empty header. *)
Definition http_NewRequest (method urlStr body : string) : option Request * option error :=
  match url_Parse urlStr with
  | (_, Some err) => (None, Some err)
  | (_, None) =>
      (Some {| Method := method; RequestURL := urlStr; RequestBody := body;
               Header := ∅ |}, None)
  end.

(** [fmt.Errorf] of line 255: Invalid server URL, then [serverURL] in
    double quotes. *)
Definition invalid_server_URL (serverURL : string) : error :=
  "Invalid server URL " +:+ dq +:+ serverURL +:+ dq.

(** [fmt.Errorf] of line 261: Invalid list of Metrics, then the slice as
    the verb [%s] prints it (a nil slice prints as an empty one). *)
Definition invalid_list_of_Metrics (metrics : strings_slice) : error :=
  "Invalid list of Metrics [" +:+ strings_Join (default [] metrics) " " +:+ "]".

(** [fmt.Errorf] of line 290: the URL in double quotes, the status code
    received with its text, the status code expected with its text. *)
Definition unexpected_status (urlStr : string) (code : Z) : error :=
  "Response from url " +:+ dq +:+ urlStr +:+ dq +:+
  " has status code " +:+ pretty code +:+ " (" +:+ http_StatusText code +:+
  "), expected " +:+ pretty http_StatusOK +:+ " (" +:+ http_StatusText http_StatusOK +:+ ")".

(** The [headers] map of [sendRequest] once [Authorization] is set. *)
Definition request_headers (h : GrayLog) : gmap string string :=
  <["Authorization" :=
      "Basic " +:+ base64_URLEncoding_EncodeToString (Username h +:+ ":" +:+ Password h)]>
    (<["Accept" := "application/json"]> {["Content-Type" := "application/json"]}).

(** The first half of [sendRequest], up to the call of [MakeRequest]:
    the parsed URL and the request handed to the client, or the values
    returned early. *)
Definition prepare (h : GrayLog) (serverURL : string)
    : outcome (URL * Request + string * float64 * option error) :=
  let headers := request_headers h in
  let method := "GET" in
  let content := "" in
  match url_Parse serverURL with
  | (_, Some _) => Done (inr ("", minus_one, Some (invalid_server_URL serverURL)))
  | (None, None) => Panic "invalid memory address or nil pointer dereference"
  | (Some requestURL, None) =>
      let prepared :=
        if strings_Contains (URL_String requestURL) "multiple" then
          let m := {| Messagebody_Metrics := Metrics h |} in
          match json_Marshal m with
          | (_, Some _) => inr ("", minus_one, Some (invalid_list_of_Metrics (Metrics h)))
          | (http_body, None) => inl ("POST", http_body)
          end
        else inl (method, content) in
      match prepared with
      | inr early => Done (inr early)
      | inl (method, content) =>
          match http_NewRequest method (URL_String requestURL) content with
          | (_, Some err) => Done (inr ("", minus_one, Some err))
          | (None, None) => Panic "invalid memory address or nil pointer dereference"
          | (Some req, None) =>
              Done (inl (requestURL,
                         {| Method := Method req; RequestURL := RequestURL req;
                            RequestBody := RequestBody req;
                            Header := add_headers (map_to_list headers) (Header req) |}))
          end
      end
  end.

(** The second half of [sendRequest]: the exchange and the processing of
    the response. *)
Definition exchange (h : GrayLog) (requestURL : URL) (req : Request)
    : string * float64 * option error :=
  match MakeRequest (client h) req with
  | inr err => ("", minus_one, Some err)
  | inl resp =>
      let responseTime := elapsed_Seconds req in
      match Body resp with
      | (body, Some err) => (body, responseTime, Some err)
      | (body, None) =>
          if decide (StatusCode resp <> http_StatusOK) then
            (body, responseTime,
             Some (unexpected_status (URL_String requestURL) (StatusCode resp)))
          else (body, responseTime, None)
      end
  end.

(** [func (h *GrayLog) sendRequest(serverURL string) (string, float64, error)]. *)
Definition sendRequest (h : GrayLog) (serverURL : string)
    : outcome (string * float64 * option error) :=
  prepared ← prepare h serverURL;
  match prepared with
  | inr early => Done early
  | inl (requestURL, req) => Done (exchange h requestURL req)
  end.

(** The request [sendRequest] hands to [MakeRequest], if it gets there. *)
Definition issued (h : GrayLog) (serverURL : string) : option Request :=
  match prepare h serverURL with
  | Done (inl (_, req)) => Some req
  | _ => None
  end.

(** The response the client gives to that request, if any. *)
Definition response_to (h : GrayLog) (serverURL : string) : option Response :=
  match issued h serverURL with
  | Some req =>
      match MakeRequest (client h) req with
      | inl resp => Some resp
      | inr _ => None
      end
  | None => None
  end.

(** Where [gatherServer] returns, with the error it returns there. *)
Inductive exit : Type :=
| ReturnSendRequest (err : error)   (* line 188 *)
| ReturnParse (err : error)         (* line 194 *)
| ReturnUnmarshal (err : error)     (* line 197 *)
| ReturnNil.                        (* line 210 *)

Definition exit_error (e : exit) : option error :=
  match e with
  | ReturnSendRequest err | ReturnParse err | ReturnUnmarshal err => Some err
  | ReturnNil => None
  end.

(** The tag set of one metric. *)
Definition metric_tags (host port : string) (m_item : Metric) : gmap string string :=
  <["type" := Type_ m_item]> (<["name" := Name m_item]>
    (<["port" := port]> {["server" := host]})).

(** [for _, m_item := range dat.Metrics { ... }]: the accumulator
    afterwards, and the panic that stopped the loop, if any. *)
Fixpoint add_metrics (host port : string) (metrics : list Metric) (acc : Accumulator)
    : Accumulator * option string :=
  match metrics with
  | [] => (acc, None)
  | m_item :: rest =>
      let tags := metric_tags host port m_item in
      match flatten (Fields m_item) ∅ "" with
      | Panic msg => (acc, Some msg)
      | Done fields =>
          add_metrics host port rest
            (acc ++ [{| measurement := FullName m_item; point_fields := fields;
                        point_tags := tags |}])
      end
  end.

(** What a metric contributes when its fields flatten without a panic. *)
Definition metric_point (host port : string) (m_item : Metric) : point :=
  {| measurement := FullName m_item;
     point_fields :=
       FlattenSpec.store ∅ (FlattenSpec.writes (VMap (Fields m_item)) "");
     point_tags := metric_tags host port m_item |}.

(** [s] contains [substr]. *)
Definition contains (s substr : string) : Prop :=
  exists before after, s = before +:+ substr +:+ after.

(** [func (h *GrayLog) gatherServer(acc telegraf.Accumulator, serverURL string) error]:
    the accumulator afterwards, and how the call ended. *)
Definition gatherServer (h : GrayLog) (acc : Accumulator) (serverURL : string)
    : Accumulator * outcome exit :=
  match sendRequest h serverURL with
  | Panic msg => (acc, Panic msg)
  | Done (_, _, Some err) => (acc, Done (ReturnSendRequest err))
  | Done (resp, _, None) =>
      let '(requestURL, err) := url_Parse serverURL in
      match requestURL with
      | None => (acc, Panic "invalid memory address or nil pointer dereference")
      | Some requestURL =>
          let '(host, port, _) := net_SplitHostPort (Host requestURL) in
          match err with
          | Some err => (acc, Done (ReturnParse err))
          | None =>
              match json_Unmarshal resp with
              | (_, Some err) => (acc, Done (ReturnUnmarshal err))
              | (dat, None) =>
                  match add_metrics host port (ResponseMetrics_Metrics dat) acc with
                  | (acc', Some msg) => (acc', Panic msg)
                  | (acc', None) => (acc', Done ReturnNil)
                  end
              end
          end
      end
  end.

(** *** The fan-out of [Gather]

    The goroutines are interleaved step by step. A step is the next
    action of one actor, the caller of [Gather] or one of the goroutines
    it started; a schedule lists which actor moves next. *)

(** Where a goroutine started on line 151 is: inside [gatherServer], with
    the calls of [acc.AddFields] still to come and the way the call ends;
    about to send on [errorChannel]; about to run the deferred
    [wg.Done()]; finished. *)
Inductive position : Type :=
| Gathering (points : list point) (ending : outcome (option error))
| Reporting (err : error)
| Returning
| Finished.

(** Where [Gather] itself is: in the loop of line 149 with the servers
    still to start (at [wg.Wait()] once there is none), or returned. *)
Inductive main : Type :=
| Looping (rest : list string)
| Returned (result : option error).

Record state : Type := {
  main_pc : main;
  goroutines : list (string * position);
  wg : Z;
  errorChannel : list error;
  accumulator : Accumulator;
  crashed : bool
}.

Inductive actor : Type :=
| Main
| Goroutine (i : nat).

(** How [gatherServer] ends for the goroutine, as the closure sees it. *)
Definition ending_of (h : GrayLog) (server : string) : outcome (option error) :=
  match (gatherServer h [] server).2 with
  | Done e => Done (exit_error e)
  | Panic msg => Panic msg
  end.

(** The points [gatherServer] adds for a server. *)
Definition points_of (h : GrayLog) (server : string) : list point :=
  (gatherServer h [] server).1.

(** [go func(server string) { ... }(server)]. *)
Definition launch (h : GrayLog) (server : string) : string * position :=
  (server, Gathering (points_of h server) (ending_of h server)).

(** The line feed. *)
Definition nl : string := String (ascii_of_nat 10) EmptyString.

(** Lines 160 to 171: the channel is closed and drained into
    [errorStrings], which are joined unless there is none. *)
Definition collect (errorChannel : list error) : option error :=
  let errorStrings := errorChannel in
  if decide (length errorStrings = 0%nat) then None
  else Some (strings_Join errorStrings nl).

Definition move (s : state) (i : nat) (server : string) (p : position) : state :=
  {| main_pc := main_pc s; goroutines := <[i := (server, p)]> (goroutines s);
     wg := wg s; errorChannel := errorChannel s; accumulator := accumulator s;
     crashed := crashed s |}.

(** The next action of actor [a] in state [s]; [None] when the actor is
    blocked or has nothing left to do. A panic in a goroutine brings the
    process down: nothing moves afterwards. A send blocks while the
    channel, made with capacity [len(h.Servers)], is full. *)
Definition exec (h : GrayLog) (a : actor) (s : state) : option state :=
  if crashed s then None else
  match a with
  | Main =>
      match main_pc s with
      | Looping (server :: rest) =>
          Some {| main_pc := Looping rest;
                  goroutines := goroutines s ++ [launch h server];
                  wg := wg s + 1;
                  errorChannel := errorChannel s; accumulator := accumulator s;
                  crashed := crashed s |}
      | Looping [] =>
          if decide (wg s = 0) then
            Some {| main_pc := Returned (collect (errorChannel s));
                    goroutines := goroutines s; wg := wg s;
                    errorChannel := errorChannel s; accumulator := accumulator s;
                    crashed := crashed s |}
          else None
      | Returned _ => None
      end
  | Goroutine i =>
      match goroutines s !! i with
      | Some (server, Gathering (p :: points) ending) =>
          Some {| main_pc := main_pc s;
                  goroutines := <[i := (server, Gathering points ending)]> (goroutines s);
                  wg := wg s; errorChannel := errorChannel s;
                  accumulator := accumulator s ++ [p];
                  crashed := crashed s |}
      | Some (server, Gathering [] (Done None)) => Some (move s i server Returning)
      | Some (server, Gathering [] (Done (Some err))) => Some (move s i server (Reporting err))
      | Some (server, Gathering [] (Panic _)) =>
          Some {| main_pc := main_pc s; goroutines := goroutines s; wg := wg s;
                  errorChannel := errorChannel s; accumulator := accumulator s;
                  crashed := true |}
      | Some (server, Reporting err) =>
          if decide (length (errorChannel s) < length (Servers h))%nat then
            Some {| main_pc := main_pc s;
                    goroutines := <[i := (server, Returning)]> (goroutines s);
                    wg := wg s; errorChannel := errorChannel s ++ [err];
                    accumulator := accumulator s;
                    crashed := crashed s |}
          else None
      | Some (server, Returning) =>
          Some {| main_pc := main_pc s;
                  goroutines := <[i := (server, Finished)]> (goroutines s);
                  wg := wg s - 1; errorChannel := errorChannel s;
                  accumulator := accumulator s;
                  crashed := crashed s |}
      | Some (_, Finished) | None => None
      end
  end.

(** One step of some actor. *)
Definition step (h : GrayLog) (s s' : state) : Prop :=
  exists a, exec h a s = Some s'.

(** Running a schedule; an actor that cannot move is passed over. *)
Fixpoint run (h : GrayLog) (schedule : list actor) (s : state) : state :=
  match schedule with
  | [] => s
  | a :: schedule => run h schedule (default s (exec h a s))
  end.

(** Lines 130 to 145: the client is configured on first use. *)
Definition setup (h : GrayLog) : GrayLog + error :=
  match HTTPClient_get (client h) with
  | Some _ => inl h
  | None =>
      match GetTLSConfig (SSLCert h) (SSLKey h) (SSLCA h) (InsecureSkipVerify h) with
      | (_, Some err) => inr err
      | (tlsCfg, None) =>
          let tr := (3, tlsCfg) in
          let client' := {| ResponseHeaderTimeout := tr.1; TLSClientConfig := tr.2;
                            Timeout := 4 |} in
          inl {| Servers := Servers h; Metrics := Metrics h;
                 Username := Username h; Password := Password h;
                 SSLCA := SSLCA h; SSLCert := SSLCert h; SSLKey := SSLKey h;
                 InsecureSkipVerify := InsecureSkipVerify h;
                 client := SetHTTPClient (client h) client' |}
      end
  end.

(** Line 147 on: no goroutine yet, an empty channel, every server still
    to start. *)
Definition initial (h : GrayLog) (acc : Accumulator) : state :=
  {| main_pc := Looping (Servers h); goroutines := []; wg := 0;
     errorChannel := []; accumulator := acc; crashed := false |}.

(** What actor [a] sends on [errorChannel] with its next action: the
    error of line 154 when the actor is a goroutine about to send. *)
Definition sent (a : actor) (s : state) : list error :=
  match a with
  | Main => []
  | Goroutine i =>
      match goroutines s !! i with
      | Some (_, Reporting err) => [err]
      | _ => []
      end
  end.

(** The errors sent along a schedule, in the order of the sends. *)
Fixpoint sends (h : GrayLog) (schedule : list actor) (s : state) : list error :=
  match schedule with
  | [] => []
  | a :: schedule =>
      match exec h a s with
      | Some s' => sent a s ++ sends h schedule s'
      | None => sends h schedule s
      end
  end.


(** [func (h *GrayLog) Gather(acc telegraf.Accumulator) error] under a
    schedule: the error returned and the accumulator at that point, or
    [None] when [Gather] has not returned by the end of the schedule. *)
Definition Gather (h : GrayLog) (acc : Accumulator) (schedule : list actor)
    : option (option error * Accumulator) :=
  match setup h with
  | inr err => Some (Some err, acc)
  | inl h =>
      let s := run h schedule (initial h acc) in
      match main_pc s with
      | Returned result => Some (result, accumulator s)
      | Looping _ => None
      end
  end.

(** The messages of the servers whose gather returns an error. *)
Definition failures (h : GrayLog) (servers : list string) : list error :=
  omap (fun server =>
          match ending_of h server with
          | Done err => err
          | Panic _ => None
          end) servers.

(** The schedule that starts every goroutine and then lets them run one
    after the other, each for [fuel] steps. *)
Definition one_by_one (n fuel : nat) : list actor :=
  replicate n Main ++
  flat_map (fun i => replicate fuel (Goroutine i)) (seq 0 n) ++ [Main].

(** *** What stays true along every interleaving *)

(** The calls of [acc.AddFields] a goroutine still has to make. *)
Definition remaining_points (g : string * position) : list point :=
  match g.2 with
  | Gathering points _ => points
  | _ => []
  end.

(** The error a goroutine still has to send. *)
Definition pending_errors (g : string * position) : list error :=
  match g.2 with
  | Gathering _ (Done (Some err)) => [err]
  | Reporting err => [err]
  | _ => []
  end.

(** What a goroutine counts for in the wait group. *)
Definition alive (g : string * position) : nat :=
  match g.2 with
  | Finished => 0
  | _ => 1
  end.

(** The servers [Gather] has not started a goroutine for yet. *)
Definition rest_of (s : state) : list string :=
  match main_pc s with
  | Looping rest => rest
  | Returned _ => []
  end.

(** A goroutine ends the way [gatherServer] ends for its server. *)
Definition position_ok (h : GrayLog) (g : string * position) : Prop :=
  match g.2 with
  | Gathering _ ending => ending = ending_of h g.1
  | Reporting err => ending_of h g.1 = Done (Some err)
  | Returning | Finished => exists err, ending_of h g.1 = Done err
  end.

Record invariant (h : GrayLog) (acc0 : Accumulator) (s : state) : Prop := {
  inv_servers : (goroutines s).*1 ++ rest_of s = Servers h;
  inv_positions : Forall (position_ok h) (goroutines s);
  inv_points : exists emitted,
    accumulator s = acc0 ++ emitted /\
    emitted ++ concat (remaining_points <$> goroutines s)
            ++ concat (points_of h <$> rest_of s)
      ≡ₚ concat (points_of h <$> Servers h);
  inv_errors :
    errorChannel s ++ concat (pending_errors <$> goroutines s)
                   ++ failures h (rest_of s)
      ≡ₚ failures h (Servers h);
  inv_wg : wg s = Z.of_nat (sum_list_with alive (goroutines s));
  inv_returned : forall result, main_pc s = Returned result ->
    result = collect (errorChannel s) /\
    Forall (fun g => g.2 = Finished) (goroutines s);
  inv_crashed : crashed s = true ->
    exists server msg, server ∈ Servers h /\ ending_of h server = Panic msg
}.

(** The states some interleaving leads to from the start of the fan-out. *)
Definition reachable (h : GrayLog) (acc0 : Accumulator) (s : state) : Prop :=
  rtc (step h) (initial h acc0) s.

(** [gatherServer] returns, with an error or without, rather than panic. *)
Definition returns (h : GrayLog) (server : string) : Prop :=
  exists err, ending_of h server = Done err.


(** How many steps are left at most. *)
Definition position_weight (p : position) : nat :=
  match p with
  | Gathering points _ => (length points + 3)%nat
  | Reporting _ => 2
  | Returning => 1
  | Finished => 0
  end.

Definition main_weight (h : GrayLog) (m : main) : nat :=
  match m with
  | Looping rest => S (sum_list_with (fun server => (length (points_of h server) + 4)%nat) rest)
  | Returned _ => 0
  end.

Definition weight (h : GrayLog) (s : state) : nat :=
  (main_weight h (main_pc s) +
   sum_list_with (fun g => position_weight g.2) (goroutines s))%nat.

End plugin.

#[global] Arguments json_Marshal : simpl never.

End Graylog.

(** ** More on the fan-out *)

Module FanoutSpec.
Import Graylog.

Section spec.
Context `{GoLib}.

(** How many actors of a schedule could move when their turn came. *)
Fixpoint moves (h : GrayLog) (schedule : list actor) (s : state) : nat :=
  match schedule with
  | [] => 0
  | a :: schedule =>
      match exec h a s with
      | Some s' => S (moves h schedule s')
      | None => moves h schedule s
      end
  end.

(** The points a goroutine has added so far are found, in the order of the
    response, among the points [emitted] since [Gather] was called. *)
Definition in_order (h : GrayLog) (emitted : list point) (g : string * position) : Prop :=
  exists added,
    points_of h g.1 = added ++ remaining_points g /\ added `sublist_of` emitted.

Definition ordered (h : GrayLog) (acc0 : Accumulator) (s : state) : Prop :=
  exists emitted,
    accumulator s = acc0 ++ emitted /\ Forall (in_order h emitted) (goroutines s).

End spec.
End FanoutSpec.

(** ** A test double for the library and the transport

    Concrete stand-ins, in the way the plugin's tests inject a fake
    client: they serve to run the definitions on sample inputs. *)

Module Fake.
Import Graylog FlattenSpec.

(** Text after the first occurrence of [sep], if any. *)
Fixpoint after (sep s : string) : option string :=
  if String.prefix sep s then Some (String.substring (String.length sep) (String.length s) s)
  else match s with
       | EmptyString => None
       | String _ s' => after sep s'
       end.

(** Text before the first occurrence of the character [c], if any. *)
Fixpoint before (c : ascii) (s : string) : option string :=
  match s with
  | EmptyString => None
  | String d s' =>
      if Ascii.eqb c d then Some ""
      else match before c s' with
           | Some p => Some (String d p)
           | None => None
           end
  end.

(** A URL of the form scheme://authority/path, refused when it holds a space. *)
Definition parse (rawurl : string) : option URL * option error :=
  if strings_Contains rawurl " " then
    (None, Some ("parse " +:+ rawurl +:+ ": invalid character in host name"))
  else
    let rest := default rawurl (after "://" rawurl) in
    (Some {| Host := default rest (before "/" rest); URL_String := rawurl |}, None).

(** Splitting at the first colon; no IPv6 literals. *)
Definition SplitHostPort (hostport : string) : string * string * option error :=
  match before ":" hostport with
  | None => ("", "", Some ("address " +:+ hostport +:+ ": missing port in address"))
  | Some host => (host, default "" (after ":" hostport), None)
  end.

Definition quoted (s : string) : string := dq +:+ s +:+ dq.

(** The literal for a string that needs no escaping; the test double
    knows no other. *)
Definition literal (s : string) : string := quoted s.

(** The response document
    [{metrics: [{full_name: m, name: n, type: t, metric: {x: 1, y: {z: 2.5}}}]}]
    and its decoding. *)
Definition sample_body : string :=
  "{" +:+ quoted "metrics" +:+ ":[{" +:+
  quoted "full_name" +:+ ":" +:+ quoted "m" +:+ "," +:+
  quoted "name" +:+ ":" +:+ quoted "n" +:+ "," +:+
  quoted "type" +:+ ":" +:+ quoted "t" +:+ "," +:+
  quoted "metric" +:+ ":{" +:+ quoted "x" +:+ ":1," +:+
  quoted "y" +:+ ":{" +:+ quoted "z" +:+ ":2.5}}}]}".

Definition sample_metric : Metric :=
  {| FullName := "m"; Name := "n"; Type_ := "t"; Fields := sample_fields |}.

(** A response document with two metrics: the one above, and
    [{full_name: m2, name: n2, type: t, metric: {x: 1, y: 2.5}}]. *)
Definition pair_body : string :=
  "{" +:+ quoted "metrics" +:+ ":[{" +:+
  quoted "full_name" +:+ ":" +:+ quoted "m" +:+ "," +:+
  quoted "name" +:+ ":" +:+ quoted "n" +:+ "," +:+
  quoted "type" +:+ ":" +:+ quoted "t" +:+ "," +:+
  quoted "metric" +:+ ":{" +:+ quoted "x" +:+ ":1," +:+
  quoted "y" +:+ ":{" +:+ quoted "z" +:+ ":2.5}}},{" +:+
  quoted "full_name" +:+ ":" +:+ quoted "m2" +:+ "," +:+
  quoted "name" +:+ ":" +:+ quoted "n2" +:+ "," +:+
  quoted "type" +:+ ":" +:+ quoted "t" +:+ "," +:+
  quoted "metric" +:+ ":{" +:+ quoted "x" +:+ ":1," +:+
  quoted "y" +:+ ":2.5}}]}".

Definition second_metric : Metric :=
  {| FullName := "m2"; Name := "n2"; Type_ := "t"; Fields := flat_floats |}.

Definition Unmarshal (data : string) : ResponseMetrics * option error :=
  if decide (data = sample_body) then
    ({| ResponseMetrics_Metrics := [sample_metric] |}, None)
  else if decide (data = pair_body) then
    ({| ResponseMetrics_Metrics := [sample_metric; second_metric] |}, None)
  else
    ({| ResponseMetrics_Metrics := [] |}, Some "unexpected end of JSON input").

Definition StatusText (code : Z) : string :=
  if decide (code = 200) then "OK"
  else if decide (code = 500) then "Internal Server Error"
  else "".

Definition TLS (cert key ca : string) (insecure : bool) : option tls_Config * option error :=
  if decide (ca = "") then (Some (TLSConfig cert key ca insecure), None)
  else (None, Some ("Could not load TLS CA: open " +:+ ca +:+ ": no such file or directory")).

#[export] Instance lib : GoLib.
Proof.
  refine {| url_Parse := parse;
            net_SplitHostPort := SplitHostPort;
            json_Unmarshal := Unmarshal;
            json_string := literal;
            http_StatusText := StatusText;
            elapsed_Seconds := fun _ => f_one;
            GetTLSConfig := TLS |}.
  - intros rawurl. unfold parse.
    destruct (strings_Contains rawurl " "); simpl; intros Hnil; discriminate.
  - reflexivity.
  - intros data. unfold Unmarshal.
    destruct (decide (data = sample_body)); [|destruct (decide (data = pair_body))];
      simpl; repeat constructor.
Defined.

(** Sample endpoints. *)
Definition multiple_url : string := "http://graylog:12900/system/metrics/multiple".
Definition namespace_url : string := "http://other:12900/system/metrics/namespace/jvm".
Definition noport_url : string := "http://graylog/system/metrics/multiple".
Definition truncated_url : string := "http://cut:12900/system/metrics/namespace/jvm".
Definition bad_url : string := "http://gray log:12900/system/metrics/multiple".
Definition pair_url : string := "http://pair:12900/system/metrics/namespace/jvm".

(** The fake transport: the first and third endpoints answer 200 with the
    sample document, the second answers 500, the body of the fourth
    breaks off while it is read, the last one answers 200 with the
    document of two metrics, and nothing else is reachable. *)
Definition transport (req : Request) : Response + error :=
  if decide (RequestURL req = multiple_url) then
    inl {| StatusCode := 200; Body := (sample_body, None) |}
  else if decide (RequestURL req = noport_url) then
    inl {| StatusCode := 200; Body := (sample_body, None) |}
  else if decide (RequestURL req = namespace_url) then
    inl {| StatusCode := 500; Body := ("", None) |}
  else if decide (RequestURL req = truncated_url) then
    inl {| StatusCode := 500; Body := ("", Some "unexpected EOF") |}
  else if decide (RequestURL req = pair_url) then
    inl {| StatusCode := 200; Body := (pair_body, None) |}
  else inr "dial tcp: connection refused".

Definition fake_client : HTTPClient :=
  {| MakeRequest := transport; HTTPClient_get := None |}.

Definition plugin (servers : list string) : GrayLog :=
  {| Servers := servers; Metrics := Some ["a.b"; "c.d"];
     Username := "user"; Password := "pass";
     SSLCA := ""; SSLCert := ""; SSLKey := ""; InsecureSkipVerify := false;
     client := fake_client |}.

(** What [url.Parse] makes of the sample endpoints, and the requests
    built for them. *)
Definition multiple_parsed : URL :=
  {| Host := "graylog:12900"; URL_String := multiple_url |}.
Definition namespace_parsed : URL :=
  {| Host := "other:12900"; URL_String := namespace_url |}.
Definition noport_parsed : URL :=
  {| Host := "graylog"; URL_String := noport_url |}.

Definition request (method serverURL body : string) : Request :=
  {| Method := method; RequestURL := serverURL; RequestBody := body;
     Header := add_headers (map_to_list (request_headers (plugin []))) ∅ |}.

Definition metrics_body : string :=
  "{" +:+ quoted "metrics" +:+ ":[" +:+ quoted "a.b" +:+ "," +:+ quoted "c.d" +:+ "]}".

Definition server_error : Response := {| StatusCode := 500; Body := ("", None) |}.
Definition truncated : Response :=
  {| StatusCode := 500; Body := ("", Some "unexpected EOF") |}.


(** An endpoint nothing listens on. *)
Definition down_url : string := "http://down:12900/system/metrics/namespace/jvm".
Definition down_parsed : URL := {| Host := "down:12900"; URL_String := down_url |}.

(** The plugin once [Gather] has set the client up. *)
Definition configured (servers : list string) : GrayLog :=
  {| Servers := servers; Metrics := Some ["a.b"; "c.d"];
     Username := "user"; Password := "pass";
     SSLCA := ""; SSLCert := ""; SSLKey := ""; InsecureSkipVerify := false;
     client :=
       SetHTTPClient fake_client
         {| ResponseHeaderTimeout := 3;
            TLSClientConfig := Some (TLSConfig "" "" "" false);
            Timeout := 4 |} |}.

(** One server that answers and one that answers 500. *)
Definition two_servers : list string := [multiple_url; namespace_url].

(** The same two and one whose URL does not parse. *)
Definition three_servers : list string := [multiple_url; namespace_url; bad_url].


(** A client that makes no exchange: it fails with a message telling
    what it saw of the request it was handed. *)
Definition spy (report : Request -> string) : HTTPClient :=
  {| MakeRequest := fun req => inr (report req); HTTPClient_get := None |}.

(** The method and the body of a request, with a space between them. *)
Definition method_and_body (req : Request) : string :=
  Method req +:+ " " +:+ RequestBody req.

(** The values of the Authorization header of a request. *)
Definition authorization (req : Request) : string :=
  strings_Join (default [] (Header req !! "Authorization")) ",".

(** A plugin for which no metric list is configured ([h.Metrics] is
    nil), and one with the credentials [username] and [password]. *)
Definition plugin_no_metrics (c : HTTPClient) : GrayLog :=
  {| Servers := []; Metrics := None;
     Username := "user"; Password := "pass";
     SSLCA := ""; SSLCert := ""; SSLKey := ""; InsecureSkipVerify := false;
     client := c |}.

Definition plugin_as (username password : string) (c : HTTPClient) : GrayLog :=
  {| Servers := []; Metrics := Some ["a.b"; "c.d"];
     Username := username; Password := password;
     SSLCA := ""; SSLCert := ""; SSLKey := ""; InsecureSkipVerify := false;
     client := c |}.

(** The server with two metrics and the one with a single metric; and a
    schedule under which the point of the second server is added between
    the two points of the first. *)
Definition pair_servers : list string := [pair_url; multiple_url].

Definition interleaved : list actor :=
  [Main; Main; Goroutine 0; Goroutine 1; Goroutine 0; Goroutine 0; Goroutine 0;
   Goroutine 1; Goroutine 1; Main].

(** All three goroutines started; the third runs to its end, then the
    second, then the first. *)
Definition last_first : list actor :=
  [Main; Main; Main] ++ replicate 5 (Goroutine 2) ++ replicate 5 (Goroutine 1)
  ++ replicate 5 (Goroutine 0) ++ [Main].

(** Both goroutines started; the second one runs to its end while the
    first has not moved yet. *)
Definition second_first : list actor :=
  [Main; Main; Goroutine 1; Goroutine 1; Goroutine 1].

End Fake.

(** * Properties *)

(** ** The flattening algorithm *)

Module FlattenFacts.
Import Flatten FlattenSpec.

(** The [map] case of the type switch is the recursive call
    [h.flatten(i.(map[string]interface{}), fields, id+k)]. *)
Lemma switch_VMap (m : gomap) (fields : gmap string value) (key : string) :
  switch (VMap m) fields key = flatten m fields key.
Proof.
  unfold flatten. simpl. revert fields.
  induction m as [|[k i] rest IH]; intros fields; [reflexivity|].
  simpl. destruct (switch i fields (with_sep key +:+ k)); simpl; [apply IH | reflexivity].
Qed.

Lemma flatten_cons k i rest fields id :
  flatten ((k, i) :: rest) fields id =
  switch i fields (with_sep id +:+ k) ≫= fun fields' => flatten rest fields' id.
Proof. reflexivity. Qed.

Lemma leaves_of_cons k i rest :
  leaves_of (VMap ((k, i) :: rest)) =
  map (prod_map (cons k) (fun v => v)) (leaves_of i) ++ leaves_of (VMap rest).
Proof. reflexivity. Qed.

Lemma int_free_cons k i rest :
  int_free (VMap ((k, i) :: rest)) = int_free i && int_free (VMap rest).
Proof. reflexivity. Qed.

Lemma writes_cons k i rest key :
  writes (VMap ((k, i) :: rest)) key =
  writes i (with_sep key +:+ k) ++ writes (VMap rest) key.
Proof.
  unfold writes. rewrite leaves_of_cons, map_app, map_map. reflexivity.
Qed.

Lemma store_app fields ws1 ws2 :
  store fields (ws1 ++ ws2) = store (store fields ws1) ws2.
Proof. unfold store. apply foldl_app. Qed.

(** Without [int] values the switch never panics, and its effect on
    [fields] is the sequence of its writes. *)
Lemma switch_store (i : value) :
  forall fields key, int_free i = true ->
    switch i fields key = Done (store fields (writes i key)).
Proof.
  induction i as [n|f|m IH|s|b|l|] using value_ind; intros fields key Hfree;
    try reflexivity; try discriminate.
  rewrite switch_VMap. revert fields Hfree.
  induction IH as [|[k i] rest Hi _ IHrest]; intros fields Hfree; [reflexivity|].
  rewrite int_free_cons in Hfree. apply andb_prop in Hfree as [Hi' Hrest].
  rewrite flatten_cons, writes_cons, store_app. simpl in Hi.
  rewrite (Hi _ _ Hi'). simpl. apply IHrest, Hrest.
Qed.

Lemma flatten_store (item : gomap) fields id :
  int_free (VMap item) = true ->
  flatten item fields id = Done (store fields (writes (VMap item) id)).
Proof. intros H. rewrite <- switch_VMap. by apply switch_store. Qed.

(** An [int] among the values of the nested mappings makes the switch
    panic, whatever the order in which the maps are visited. *)
Lemma switch_int_panics (i : value) :
  forall fields key, int_free i = false -> exists msg, switch i fields key = Panic msg.
Proof.
  induction i as [n|f|m IH|s|b|l|] using value_ind; intros fields key Hint;
    try discriminate; [eexists; reflexivity|].
  rewrite switch_VMap. revert fields Hint.
  induction IH as [|[k i] rest Hi _ IHrest]; intros fields Hint; [discriminate|].
  rewrite int_free_cons in Hint. rewrite flatten_cons. simpl in Hi.
  destruct (int_free i) eqn:Hfi.
  - rewrite (switch_store i _ _ Hfi). simpl. apply IHrest, Hint.
  - destruct (Hi fields (with_sep key +:+ k) eq_refl) as [msg ->]. by exists msg.
Qed.

(** *** Lookups after a sequence of writes *)

Lemma store_cons fields k v ws :
  store fields ((k, v) :: ws) = store (<[k := v]> fields) ws.
Proof. reflexivity. Qed.

Lemma store_lookup_Some ws : forall (fields : gmap string value) k v,
  store fields ws !! k = Some v -> (k, v) ∈ ws \/ fields !! k = Some v.
Proof.
  induction ws as [|[k1 v1] ws IH]; intros fields k v Hk; [by right|].
  rewrite store_cons in Hk. apply IH in Hk as [Hin|Hk].
  - left. by apply list_elem_of_further.
  - destruct (decide (k1 = k)) as [->|Hne].
    + rewrite lookup_insert_eq in Hk. injection Hk as ->. left. apply list_elem_of_here.
    + rewrite lookup_insert_ne in Hk by done. by right.
Qed.

Lemma store_lookup_agree ws : forall (fields : gmap string value) k v,
  (forall v', (k, v') ∈ ws -> v' = v) ->
  fields !! k = Some v \/ (k, v) ∈ ws ->
  store fields ws !! k = Some v.
Proof.
  induction ws as [|[k1 v1] ws IH]; intros fields k v Hagree Hk.
  - destruct Hk as [Hk|Hk]; [done|]. by apply elem_of_nil in Hk.
  - rewrite store_cons. apply IH.
    + intros v' Hv'. apply Hagree. by apply list_elem_of_further.
    + destruct (decide (k1 = k)) as [->|Hne].
      * left. rewrite lookup_insert_eq. f_equal. apply Hagree, list_elem_of_here.
      * destruct Hk as [Hk|Hk].
        -- left. by rewrite lookup_insert_ne.
        -- right. apply elem_of_cons in Hk as [Heq|Hk]; [congruence|done].
Qed.

(** The last write to a key wins; a key that is not written keeps what
    it held. *)
Lemma store_lookup ws : forall (fields : gmap string value) k,
  store fields ws !! k =
  match last_write k ws with
  | Some v => Some v
  | None => fields !! k
  end.
Proof.
  induction ws as [|[k1 v1] ws IH]; intros fields k; [reflexivity|].
  rewrite store_cons, IH. simpl. destruct (last_write k ws) as [v|]; [reflexivity|].
  destruct (decide (k1 = k)) as [->|Hne].
  - apply lookup_insert_eq.
  - by apply lookup_insert_ne.
Qed.

Lemma last_write_None k ws :
  last_write k ws = None <-> Forall (fun kv => kv.1 <> k) ws.
Proof.
  induction ws as [|[k1 v1] ws IH]; simpl; [by split; [constructor|]|].
  rewrite Forall_cons, <- IH. simpl. destruct (last_write k ws) as [v|].
  - split; [discriminate|]. by intros [_ ?].
  - destruct (decide (k1 = k)); split; try done; by intros [? _].
Qed.

Lemma last_write_None_joined k (ls : list (list string * value)) :
  last_write k (map (fun pv => (join_path pv.1, pv.2)) ls) = None <->
  Forall (fun pv => join_path pv.1 <> k) ls.
Proof.
  rewrite last_write_None.
  apply (List.Forall_map (fun pv : list string * value => (join_path pv.1, pv.2))
           (fun kv : string * value => kv.1 <> k)).
Qed.

Lemma last_write_leaf k v (ls : list (list string * value)) :
  last_write k (map (fun pv => (join_path pv.1, pv.2)) ls) = Some v <->
  last_leaf k v ls.
Proof.
  unfold last_leaf. induction ls as [|[p w] ls IH]; simpl.
  - split; [discriminate|]. intros (before & path & after & Heq & _).
    by destruct before.
  - destruct (last_write k (map _ ls)) as [v'|] eqn:Hlast.
    + split.
      * intros Heq. destruct (proj1 IH Heq) as (before & path & after & -> & Hk & Hafter).
        by exists ((p, w) :: before), path, after.
      * intros (before & path & after & Heq & Hk & Hafter).
        destruct before as [|b before]; simplify_eq/=.
        -- apply last_write_None_joined in Hafter. congruence.
        -- apply IH. by exists before, path, after.
    + apply last_write_None_joined in Hlast. split.
      * destruct (decide (join_path p = k)) as [Hk|Hk]; [|discriminate].
        intros [= ->]. by exists [], p, ls.
      * intros (before & path & after & Heq & Hk & Hafter).
        destruct before as [|b before]; simplify_eq/=.
        -- by rewrite decide_True.
        -- apply Forall_app in Hlast as [_ [Hne _]%Forall_cons]. by destruct Hne.
Qed.

(** *** Keys written versus underscore-joined paths *)

Lemma append_cons x (a b : string) : String x a +:+ b = String x (a +:+ b).
Proof. reflexivity. Qed.

Lemma append_assoc (a b c : string) : (a +:+ b) +:+ c = a +:+ (b +:+ c).
Proof. induction a as [|x a IH]; [reflexivity|]. by rewrite !append_cons, IH. Qed.

Lemma append_nonempty (a b : string) : a <> "" -> a +:+ b <> "".
Proof. destruct a; [done|discriminate]. Qed.

Lemma with_sep_nonempty key : key <> "" -> with_sep key = key +:+ "_".
Proof. intros H. unfold with_sep. by destruct (decide (key = "")). Qed.

Lemma join_path_cons k k' rest :
  join_path (k :: k' :: rest) = k +:+ "_" +:+ join_path (k' :: rest).
Proof. reflexivity. Qed.

Lemma key_of_prefixed path : forall key,
  key <> "" -> path <> [] -> key_of key path = key +:+ "_" +:+ join_path path.
Proof.
  induction path as [|k [|k' rest] IH]; intros key Hkey Hpath; [done| |].
  - simpl. rewrite with_sep_nonempty by done. apply append_assoc.
  - change (key_of key (k :: k' :: rest))
      with (key_of (with_sep key +:+ k) (k' :: rest)).
    rewrite IH; [|rewrite with_sep_nonempty by done; by do 2 apply append_nonempty|done].
    rewrite with_sep_nonempty, join_path_cons by done.
    by rewrite !append_assoc.
Qed.

(** At the top level ([id = ""]) the written key is the joined path,
    unless the path starts with an empty key and goes on. *)
Lemma key_of_top k rest :
  (rest <> [] -> k <> "") -> key_of "" (k :: rest) = join_path (k :: rest).
Proof.
  intros Hk. change (key_of "" (k :: rest)) with (key_of k rest).
  destruct rest as [|k' rest]; [reflexivity|].
  rewrite key_of_prefixed; [reflexivity|by apply Hk|done].
Qed.

Lemma leaves_of_not_map i path v :
  is_map i = false -> (path, v) ∈ leaves_of i -> path = [].
Proof.
  destruct i; simpl; try discriminate; intros _ H;
    first [ by apply elem_of_nil in H
          | apply list_elem_of_singleton in H; congruence ].
Qed.

Lemma leaves_inv (item : gomap) path v :
  (path, v) ∈ leaves item ->
  exists k i rest, (k, i) ∈ item /\ path = k :: rest /\ (rest, v) ∈ leaves_of i.
Proof.
  unfold leaves. induction item as [|[k i] item IH]; intros H.
  - by apply elem_of_nil in H.
  - rewrite leaves_of_cons in H. apply elem_of_app in H as [H|H].
    + apply list_elem_of_fmap in H as [[rest v'] [Heq Hin]]. simpl in Heq.
      injection Heq as -> ->. exists k, i, rest. split; [apply list_elem_of_here|done].
    + destruct (IH H) as (k' & i' & rest & Hin & -> & Hl).
      exists k', i', rest. split; [by apply list_elem_of_further|done].
Qed.

Lemma leaves_float (i : value) : forall path v,
  int_free i = true -> (path, v) ∈ leaves_of i -> is_float v = true.
Proof.
  induction i as [n|f|m IH|s|b|l|] using value_ind; intros path v Hfree Hin;
    try discriminate; try (by apply elem_of_nil in Hin).
  - apply list_elem_of_singleton in Hin. by injection Hin as -> ->.
  - revert Hfree Hin. induction IH as [|[k i] rest Hi _ IHrest]; intros Hfree Hin.
    + by apply elem_of_nil in Hin.
    + rewrite int_free_cons in Hfree. apply andb_prop in Hfree as [Hfi Hfrest].
      rewrite leaves_of_cons in Hin. apply elem_of_app in Hin as [Hin|Hin].
      * apply list_elem_of_fmap in Hin as [[p' v'] [Heq Hin]]. simpl in Heq.
        injection Heq as -> ->. by apply (Hi p' v').
      * by apply IHrest.
Qed.

Lemma top_keys_named_spec (item : gomap) k i :
  top_keys_named item = true -> (k, i) ∈ item -> is_map i = true -> k <> "".
Proof.
  unfold top_keys_named. rewrite forallb_forall. intros Hall Hin Hmap.
  apply list_elem_of_In in Hin. specialize (Hall _ Hin). simpl in Hall.
  rewrite Hmap in Hall. simpl in Hall. apply negb_true_iff in Hall.
  by apply String.eqb_neq in Hall.
Qed.

Lemma key_of_leaf (item : gomap) path v :
  top_keys_named item = true -> (path, v) ∈ leaves item ->
  key_of "" path = join_path path.
Proof.
  intros Htop Hin. destruct (leaves_inv _ _ _ Hin) as (k & i & rest & Hki & -> & Hrest).
  apply key_of_top. intros Hne. apply (top_keys_named_spec item k i); [done..|].
  destruct (is_map i) eqn:Hm; [done|].
  by rewrite (leaves_of_not_map i rest v Hm Hrest) in Hne.
Qed.

Lemma writes_top (item : gomap) :
  top_keys_named item = true ->
  writes (VMap item) "" = map (fun pv => (join_path pv.1, pv.2)) (leaves item).
Proof.
  intros Htop. unfold writes. fold (leaves item).
  apply map_ext_in. intros [path v] Hin. simpl. f_equal.
  apply (key_of_leaf item path v); [done|by apply list_elem_of_In].
Qed.

(** The prefix is only joined when it is non-empty, so below an empty
    top-level key the separator is missing. *)
Remark flatten_unnamed_parent :
  flatten unnamed_parent ∅ "" = Done {["x" := VFloat f_one]} /\
  join_path ["" ; "x"] = "_x".
Proof. split; reflexivity. Qed.

(** C1, as amended. For every nested mapping holding no Go [int] (numbers
    as float64, the way JSON is decoded) and with no nested mapping under
    an empty top-level key, [flatten] with an empty prefix and an empty
    output returns normally, and the output holds a value under a key
    exactly when that value is the one of the last leaf visited among the
    numeric leaves whose underscore-joined path is the key: every key is
    the joined path of a leaf, every joined path of a leaf is a key, on a
    collision the last write wins and no other leaf is lost; and every
    value of the output is a float64. *)
Theorem flatten_keeps_leaves (item : gomap) :
  int_free (VMap item) = true -> top_keys_named item = true ->
  keeps_last_leaves item.
Proof.
  intros Hfree Htop. exists (store ∅ (writes (VMap item) "")).
  split; [by apply flatten_store|]. rewrite (writes_top item Htop). split.
  - intros k v. rewrite store_lookup, <- last_write_leaf, lookup_empty.
    by destruct (last_write k _).
  - intros k v Hk. apply store_lookup_Some in Hk as [Hk|Hk]; [|by rewrite lookup_empty in Hk].
    apply list_elem_of_fmap in Hk as [[path v'] [Heq Hin]]. simpl in Heq.
    injection Heq as -> ->. by apply (leaves_float (VMap item) path).
Qed.

Lemma flatten_keeps_leaves_witness :
  int_free (VMap colliding) = true /\ top_keys_named colliding = true /\
  keeps_last_leaves colliding.
Proof.
  split; [reflexivity|]. split; [reflexivity|].
  apply (flatten_keeps_leaves colliding); reflexivity.
Defined.

(** On the colliding document the leaf visited last is the one kept, in
    either order. *)
Example flatten_colliding_last_wins :
  flatten colliding ∅ "" = Done {["a_b" := VFloat f_two]} /\
  last_leaf "a_b" (VFloat f_two) (leaves colliding) /\
  flatten colliding' ∅ "" = Done {["a_b" := VFloat f_one]} /\
  last_leaf "a_b" (VFloat f_one) (leaves colliding').
Proof.
  split; [reflexivity|]. split; [|split; [reflexivity|]].
  - exists [(["a"; "b"], VFloat f_one)], ["a_b"], []. by repeat split.
  - exists [(["a_b"], VFloat f_two)], ["a"; "b"], []. by repeat split.
Qed.

(** C1, as stated, fails on [{"a": {"b": 1.0}, "a_b": 2.0}]: both leaves
    flatten to the key [a_b], and whichever the loop visits first is
    overwritten. *)
Lemma flatten_collision_loses_leaf :
  int_free (VMap colliding) = true /\
  ~ keeps_every_leaf colliding /\ ~ keeps_every_leaf colliding'.
Proof.
  split; [reflexivity|]. split; intros (out & Hout & Hall & _).
  - injection Hout as <-.
    specialize (Hall ["a"; "b"] (VFloat f_one)). vm_compute in Hall.
    assert (Some (VFloat f_two) = Some (VFloat f_one)) as Habs; [|discriminate Habs].
    apply Hall. apply list_elem_of_here.
  - injection Hout as <-.
    specialize (Hall ["a_b"] (VFloat f_two)). vm_compute in Hall.
    assert (Some (VFloat f_one) = Some (VFloat f_two)) as Habs; [|discriminate Habs].
    apply Hall. apply list_elem_of_here.
Qed.

(** *** Flat mappings *)

Lemma writes_flat_floats (item : gomap) :
  forallb (fun kv => is_float kv.2) item = true -> writes (VMap item) "" = item.
Proof.
  induction item as [|[k i] item IH]; intros Hall; [reflexivity|].
  simpl in Hall. apply andb_prop in Hall as [Hi Hall].
  rewrite writes_cons, IH by done. destruct i; try discriminate. reflexivity.
Qed.

Lemma store_list_to_map (item : gomap) :
  NoDup item.*1 -> store ∅ item = list_to_map item.
Proof.
  intros Hnd. apply map_eq. intros k.
  destruct (list_to_map (M := gmap string value) item !! k) as [v|] eqn:Hk.
  - apply store_lookup_agree; [|right; by apply elem_of_list_to_map in Hk].
    intros v' Hv'. apply (elem_of_list_to_map (M := gmap string)) in Hv'; [|done].
    congruence.
  - destruct (store ∅ item !! k) as [v|] eqn:Hs; [|reflexivity].
    apply store_lookup_Some in Hs as [Hs|Hs]; [|by rewrite lookup_empty in Hs].
    apply (elem_of_list_to_map (M := gmap string)) in Hs; [|done]. congruence.
Qed.

(** C7, as amended. A flat mapping all of whose values are float64 comes
    back unchanged from [flatten] with an empty prefix. *)
Theorem flatten_flat_floats_unchanged (item : gomap) :
  NoDup item.*1 -> forallb (fun kv => is_float kv.2) item = true ->
  flatten item ∅ "" = Done (list_to_map item).
Proof.
  intros Hnd Hall. rewrite flatten_store, writes_flat_floats, store_list_to_map; try done.
  clear Hnd. induction item as [|[k i] item IH]; [reflexivity|].
  simpl in Hall. apply andb_prop in Hall as [Hi Hall].
  rewrite int_free_cons, IH by done. by destruct i.
Qed.

Lemma flatten_flat_floats_unchanged_witness :
  NoDup flat_floats.*1 /\
  forallb (fun kv => is_float kv.2) flat_floats = true /\
  flatten flat_floats ∅ "" = Done (list_to_map flat_floats).
Proof.
  assert (NoDup flat_floats.*1) as Hnd by (apply (bool_decide_unpack _); vm_compute; exact I).
  split; [exact Hnd|]. split; [reflexivity|].
  apply (flatten_flat_floats_unchanged flat_floats Hnd). reflexivity.
Defined.

(** C7, as stated, fails on the flat mapping [{"s": "up"}]: it holds no
    nested mapping, and [flatten] returns the empty mapping. *)
Lemma flatten_flat_string_dropped :
  flat flat_with_string = true /\
  flatten flat_with_string ∅ "" = Done ∅ /\
  flatten flat_with_string ∅ "" <> Done (list_to_map flat_with_string).
Proof.
  split; [reflexivity|]. split; [reflexivity|].
  intros H.
  apply (f_equal (fun o => match o with Done m => m !! "s" | Panic _ => None end)) in H.
  vm_compute in H. discriminate H.
Qed.

(** *** Integers *)

Lemma switch_float f fields key :
  switch (VFloat f) fields key = Done (<[key := VFloat f]> fields).
Proof. reflexivity. Qed.

(** X2. A mapping that holds a Go [int] as one of its values, or as a
    value of a mapping nested in it at any depth, makes [flatten] panic,
    whatever the prefix, the output so far and the order in which the
    maps are visited. (An [int] inside a list is out of reach: the list
    is dropped whole.) *)
Lemma flatten_int_always_panics (item : gomap) fields id :
  int_free (VMap item) = false -> exists msg, flatten item fields id = Panic msg.
Proof. intros H. rewrite <- switch_VMap. by apply switch_int_panics. Qed.

(** C2 fails on the code: on a mapping built with a Go [int], the branch
    [case int] asserts [i.(float64)] and the call panics instead of
    storing the value as a float. *)
Theorem flatten_int_panics :
  flatten with_int ∅ "" =
  Panic "interface conversion: interface {} is int, not float64".
Proof. reflexivity. Qed.

End FlattenFacts.

(** ** Requests and responses *)

Module GraylogFacts.
Import Flatten FlattenSpec FlattenFacts Graylog.

(** *** Strings *)

Lemma prefix_spec (p s : string) :
  String.prefix p s = true <-> exists rest, s = p +:+ rest.
Proof.
  revert s. induction p as [|c p IH]; intros s.
  - split; [intros _; by exists s|]. by destruct s.
  - destruct s as [|d s]; simpl.
    + split; [discriminate|]. intros [rest Hrest]. discriminate Hrest.
    + destruct (ascii_dec c d) as [->|Hne].
      * rewrite IH. split; intros [rest Hrest]; exists rest.
        -- by rewrite append_cons, Hrest.
        -- rewrite append_cons in Hrest. by injection Hrest.
      * split; [discriminate|]. intros [rest Hrest].
        rewrite append_cons in Hrest. injection Hrest as Hcd _. by destruct Hne.
Qed.

Lemma strings_Contains_spec (s substr : string) :
  strings_Contains s substr = true <-> contains s substr.
Proof.
  unfold contains. induction s as [|c s IH]; cbn [strings_Contains].
  - rewrite orb_false_r, prefix_spec. split.
    + intros [rest Hrest]. by exists "", rest.
    + intros (before & after & Heq). destruct before; [by exists after|discriminate].
  - rewrite orb_true_iff, IH, prefix_spec. split.
    + intros [[rest Hrest]|(before & after & Heq)].
      * by exists "", rest.
      * exists (String c before), after. by rewrite append_cons, Heq.
    + intros (before & after & Heq). destruct before as [|d before].
      * left. by exists after.
      * right. rewrite append_cons in Heq. injection Heq as _ Heq. by exists before, after.
Qed.

Lemma contains_app_l (a s x : string) : contains s x -> contains (a +:+ s) x.
Proof.
  intros (before & after & ->). exists (a +:+ before), after. by rewrite append_assoc.
Qed.

(** *** The header loop *)

Lemma add_headers_cons k v entries hdr :
  add_headers ((k, v) :: entries) hdr = add_headers entries (Header_Add k v hdr).
Proof. reflexivity. Qed.

Lemma add_headers_lookup_notin entries : forall hdr k,
  k ∉ entries.*1 -> add_headers entries hdr !! k = hdr !! k.
Proof.
  induction entries as [|[k1 v1] entries IH]; intros hdr k Hk; [reflexivity|].
  rewrite add_headers_cons, IH.
  - unfold Header_Add. apply lookup_insert_ne. intros ->. apply Hk, list_elem_of_here.
  - intros Hin. apply Hk. by apply list_elem_of_further.
Qed.

Lemma add_headers_lookup_in entries : forall hdr k v,
  NoDup entries.*1 -> (k, v) ∈ entries -> hdr !! k = None ->
  add_headers entries hdr !! k = Some [v].
Proof.
  induction entries as [|[k1 v1] entries IH]; intros hdr k v Hnd Hin Hk.
  - by apply elem_of_nil in Hin.
  - rewrite add_headers_cons. apply NoDup_cons in Hnd as [Hk1 Hnd].
    apply elem_of_cons in Hin as [Heq|Hin].
    + injection Heq as -> ->. rewrite add_headers_lookup_notin by done.
      unfold Header_Add. by rewrite lookup_insert_eq, Hk.
    + apply IH; [done..|]. unfold Header_Add. rewrite lookup_insert_ne; [done|].
      intros ->. apply Hk1. apply list_elem_of_fmap. by exists (k, v).
Qed.

(** Whatever the order in which the loop visits [headers], every entry
    ends up as the single value of its header. *)
Lemma add_headers_any_order (headers : gmap string string) entries k :
  entries ≡ₚ map_to_list headers ->
  add_headers entries ∅ !! k = (fun v => [v]) <$> headers !! k.
Proof.
  intros Hperm.
  assert (NoDup entries.*1) as Hnd.
  { rewrite Hperm. apply NoDup_fst_map_to_list. }
  destruct (headers !! k) as [v|] eqn:Hk; simpl.
  - apply add_headers_lookup_in; [done| |apply lookup_empty].
    rewrite Hperm. by apply elem_of_map_to_list.
  - rewrite add_headers_lookup_notin; [apply lookup_empty|].
    intros Hin. apply list_elem_of_fmap in Hin as [[k' v] [-> Hin]].
    rewrite Hperm in Hin. apply elem_of_map_to_list in Hin. simpl in Hk. congruence.
Qed.

Section requests.
Context `{GoLib}.

(** *** What [sendRequest] hands to the client *)

Lemma prepare_request_inv h serverURL requestURL req :
  prepare h serverURL = Done (inl (requestURL, req)) ->
  url_Parse serverURL = (Some requestURL, None) /\
  RequestURL req = URL_String requestURL /\
  Header req = add_headers (map_to_list (request_headers h)) ∅ /\
  (if strings_Contains (URL_String requestURL) "multiple"
   then Method req = "POST" /\
        json_Marshal {| Messagebody_Metrics := Metrics h |} = (RequestBody req, None)
   else Method req = "GET" /\ RequestBody req = "").
Proof.
  unfold prepare, http_NewRequest.
  destruct (url_Parse serverURL) as [[u|] [e|]]; try discriminate.
  destruct (strings_Contains (URL_String u) "multiple") eqn:Hmode.
  - destruct (json_Marshal _) as [http_body [e|]]; try discriminate.
    destruct (url_Parse (URL_String u)) as [u' [e|]]; try discriminate.
    intros Heq. injection Heq as <- <-. rewrite Hmode. by simpl.
  - destruct (url_Parse (URL_String u)) as [u' [e|]]; try discriminate.
    intros Heq. injection Heq as <- <-. rewrite Hmode. by simpl.
Qed.

Lemma issued_Some h serverURL req :
  issued h serverURL = Some req <->
  exists requestURL, prepare h serverURL = Done (inl (requestURL, req)).
Proof.
  unfold issued. destruct (prepare h serverURL) as [[[u r]|early]|msg]; split;
    try discriminate; try (intros [? ?]; discriminate).
  - intros Heq. injection Heq as ->. by exists u.
  - intros [u' Heq]. by injection Heq as _ ->.
Qed.

Lemma sendRequest_issued h serverURL requestURL req :
  prepare h serverURL = Done (inl (requestURL, req)) ->
  sendRequest h serverURL = Done (exchange h requestURL req).
Proof. unfold sendRequest. by intros ->. Qed.

Lemma prepare_valid h serverURL requestURL :
  url_Parse serverURL = (Some requestURL, None) ->
  (url_Parse (URL_String requestURL)).2 = None ->
  exists req, prepare h serverURL = Done (inl (requestURL, req)).
Proof.
  intros Hparse Hnew. unfold prepare, http_NewRequest, json_Marshal. rewrite Hparse.
  destruct (url_Parse (URL_String requestURL)) as [u' e]. simpl in Hnew. subst e.
  destruct (strings_Contains (URL_String requestURL) "multiple"); by eexists.
Qed.

(** Names that need no escaping are written between double quotes. *)
Lemma metrics_object_plain names :
  Forall (fun name => plain name = true) names ->
  metrics_object names =
    "{" +:+ dq +:+ "metrics" +:+ dq +:+ ":[" +:+
    strings_Join ((fun name => dq +:+ name +:+ dq) <$> names) "," +:+ "]}".
Proof.
  intros Hplain. unfold metrics_object.
  assert (json_string <$> names = (fun name => dq +:+ name +:+ dq) <$> names) as ->;
    [|reflexivity].
  apply Forall_fmap_ext_1. eapply Forall_impl; [exact Hplain|].
  intros name. apply json_string_plain.
Qed.

(** C4, as amended. For a server URL that [url.Parse] and
    [http.NewRequest] accept, [sendRequest] hands one request to the
    client and returns what comes of it: the error of the client with an
    empty body, or the body read from its answer. The request goes to the
    URL; it is a POST exactly when the text of the URL contains the word
    multiple, and its body is then the JSON object that binds the key
    metrics to the array of the configured metric names (each between
    double quotes when it needs no escaping), or to null when no metric
    list is configured; otherwise it is a GET with an empty body,
    whatever the metric list. *)
Theorem sendRequest_method_and_body h serverURL requestURL :
  url_Parse serverURL = (Some requestURL, None) ->
  (url_Parse (URL_String requestURL)).2 = None ->
  exists req,
    issued h serverURL = Some req /\
    (forall err, MakeRequest (client h) req = inr err ->
       sendRequest h serverURL = Done ("", minus_one, Some err)) /\
    (forall resp, MakeRequest (client h) req = inl resp ->
       exists err,
         sendRequest h serverURL = Done ((Body resp).1, elapsed_Seconds req, err)) /\
    RequestURL req = URL_String requestURL /\
    if strings_Contains (URL_String requestURL) "multiple"
    then Method req = "POST" /\
         match Metrics h with
         | None => RequestBody req = null_object
         | Some names =>
             RequestBody req = metrics_object names /\
             (Forall (fun name => plain name = true) names ->
              RequestBody req =
                "{" +:+ dq +:+ "metrics" +:+ dq +:+ ":[" +:+
                strings_Join ((fun name => dq +:+ name +:+ dq) <$> names) "," +:+ "]}")
         end
    else Method req = "GET" /\ RequestBody req = "".
Proof.
  intros Hparse Hnew. destruct (prepare_valid h _ _ Hparse Hnew) as [req Hprep].
  exists req. split; [apply issued_Some; by exists requestURL|].
  pose proof (sendRequest_issued _ _ _ _ Hprep) as Hsend. unfold exchange in Hsend.
  split; [|split].
  - intros err Hmk. by rewrite Hmk in Hsend.
  - intros resp Hmk. rewrite Hmk in Hsend.
    destruct (Body resp) as [body [e|]]; [by eexists|].
    case_decide; by eexists.
  - destruct (prepare_request_inv _ _ _ _ Hprep) as (_ & Hurl & _ & Hmode).
    split; [done|].
    destruct (strings_Contains (URL_String requestURL) "multiple"); [|done].
    destruct Hmode as [Hmethod Hbody]. split; [done|].
    unfold json_Marshal in Hbody. simpl in Hbody. injection Hbody as Hbody.
    destruct (Metrics h) as [names|]; [|done].
    split; [done|]. intros Hplain. by rewrite <- Hbody, metrics_object_plain.
Qed.

(** Every request [sendRequest] hands to the client carries a single
    Authorization header: Basic, a space, and username, colon, password
    encoded by [base64.URLEncoding]. *)
Lemma sendRequest_authorization h serverURL req :
  issued h serverURL = Some req ->
  Header req !! "Authorization" =
    Some ["Basic " +:+
          base64_URLEncoding_EncodeToString (Username h +:+ ":" +:+ Password h)].
Proof.
  intros [requestURL Hprep]%issued_Some.
  destruct (prepare_request_inv _ _ _ _ Hprep) as (_ & _ & -> & _).
  rewrite (add_headers_any_order (request_headers h)) by done.
  unfold request_headers. by rewrite lookup_insert_eq.
Qed.

(** The other two headers ask for JSON. *)
Lemma sendRequest_json_headers h serverURL req :
  issued h serverURL = Some req ->
  Header req !! "Content-Type" = Some ["application/json"] /\
  Header req !! "Accept" = Some ["application/json"].
Proof.
  intros [requestURL Hprep]%issued_Some.
  destruct (prepare_request_inv _ _ _ _ Hprep) as (_ & _ & -> & _).
  rewrite !(add_headers_any_order (request_headers h)) by done.
  unfold request_headers. split; by simplify_map_eq.
Qed.

(** *** Response handling *)

Lemma contains_here (x rest : string) : contains (x +:+ rest) x.
Proof. by exists "", rest. Qed.

Lemma pretty_StatusOK : pretty http_StatusOK = "200".
Proof. reflexivity. Qed.

Lemma unexpected_status_contains urlStr code :
  contains (unexpected_status urlStr code) urlStr /\
  contains (unexpected_status urlStr code) (pretty code) /\
  contains (unexpected_status urlStr code) "200".
Proof.
  unfold unexpected_status. rewrite pretty_StatusOK. repeat split.
  - do 2 apply contains_app_l. apply contains_here.
  - do 5 apply contains_app_l. apply contains_here.
  - do 9 apply contains_app_l. apply contains_here.
Qed.

Lemma exchange_read h requestURL req resp body :
  MakeRequest (client h) req = inl resp -> Body resp = (body, None) ->
  exchange h requestURL req =
    (body, elapsed_Seconds req,
     if decide (StatusCode resp <> http_StatusOK)
     then Some (unexpected_status (URL_String requestURL) (StatusCode resp))
     else None).
Proof. unfold exchange. intros -> ->. by case_decide. Qed.

Lemma gatherServer_sendRequest_error h acc serverURL resp responseTime err :
  sendRequest h serverURL = Done (resp, responseTime, Some err) ->
  gatherServer h acc serverURL = (acc, Done (ReturnSendRequest err)).
Proof. unfold gatherServer. by intros ->. Qed.

Lemma exchange_read_error h requestURL req resp body err :
  MakeRequest (client h) req = inl resp -> Body resp = (body, Some err) ->
  exchange h requestURL req = (body, elapsed_Seconds req, Some err).
Proof. unfold exchange. by intros -> ->. Qed.

(** C6, as amended. When the client has answered the request: if the
    body is read without error and the status code is not 200,
    [sendRequest] returns an error whose message holds the text of the
    request URL, the status code received and the expected code 200, and
    [gatherServer] returns that error with the accumulator untouched; if
    the body is read without error and the status code is 200,
    [sendRequest] returns no error; and if reading the body fails,
    [sendRequest] returns the read error with what was read, whatever the
    status code, and [gatherServer] returns that error with the
    accumulator untouched. *)
Theorem sendRequest_status_error h acc serverURL requestURL req resp :
  prepare h serverURL = Done (inl (requestURL, req)) ->
  MakeRequest (client h) req = inl resp ->
  (forall body, Body resp = (body, None) ->
     (StatusCode resp <> http_StatusOK ->
        let err := unexpected_status (URL_String requestURL) (StatusCode resp) in
        sendRequest h serverURL = Done (body, elapsed_Seconds req, Some err) /\
        gatherServer h acc serverURL = (acc, Done (ReturnSendRequest err)) /\
        contains err (URL_String requestURL) /\
        contains err (pretty (StatusCode resp)) /\
        contains err "200") /\
     (StatusCode resp = http_StatusOK ->
        sendRequest h serverURL = Done (body, elapsed_Seconds req, None))) /\
  (forall body err, Body resp = (body, Some err) ->
     sendRequest h serverURL = Done (body, elapsed_Seconds req, Some err) /\
     gatherServer h acc serverURL = (acc, Done (ReturnSendRequest err))).
Proof.
  intros Hprep Hresp.
  pose proof (sendRequest_issued _ _ _ _ Hprep) as Hsend. split.
  - intros body Hbody.
    rewrite (exchange_read _ _ _ _ _ Hresp Hbody) in Hsend.
    split; intros Hcode.
    + rewrite decide_True in Hsend by done. cbv zeta.
      split; [done|]. split; [by eapply gatherServer_sendRequest_error|].
      apply unexpected_status_contains.
    + by rewrite decide_False in Hsend by (intros Hne; by apply Hne).
  - intros body err Hbody.
    rewrite (exchange_read_error _ _ _ _ _ _ Hresp Hbody) in Hsend.
    split; [done|]. by eapply gatherServer_sendRequest_error.
Qed.

(** *** One endpoint *)

Lemma sendRequest_nil_inv h serverURL resp responseTime :
  sendRequest h serverURL = Done (resp, responseTime, None) ->
  exists requestURL req r,
    url_Parse serverURL = (Some requestURL, None) /\
    prepare h serverURL = Done (inl (requestURL, req)) /\
    MakeRequest (client h) req = inl r /\
    Body r = (resp, None) /\ StatusCode r = http_StatusOK.
Proof.
  unfold sendRequest. destruct (prepare h serverURL) as [[[u req]|early]|msg] eqn:Hprep;
    simpl; try discriminate.
  - intros Heq. injection Heq as Heq.
    destruct (prepare_request_inv _ _ _ _ Hprep) as (Hparse & _).
    exists u, req. unfold exchange in Heq.
    destruct (MakeRequest (client h) req) as [r|e]; [|discriminate].
    destruct (Body r) as [body [e|]] eqn:Hbody; [discriminate|].
    destruct (decide (StatusCode r <> http_StatusOK)) as [|Hok]; [discriminate|].
    injection Heq as -> _. exists r. repeat split; try done.
    by destruct (decide (StatusCode r = http_StatusOK)).
  - intros Heq. injection Heq as ->. revert Hprep. unfold prepare, http_NewRequest.
    destruct (url_Parse serverURL) as [[u|] [e|]]; try discriminate.
    destruct (strings_Contains _ _).
    + destruct (json_Marshal _) as [b [e|]]; [discriminate|].
      by destruct (url_Parse (URL_String u)) as [u' [e|]].
    + by destruct (url_Parse (URL_String u)) as [u' [e|]].
Qed.

Lemma switch_panic_msg (i : value) : forall fields key msg,
  switch i fields key = Panic msg ->
  msg = "interface conversion: interface {} is int, not float64".
Proof.
  induction i as [n|f|m IH|s|b|l|] using value_ind; intros fields key msg;
    try discriminate.
  - intros Heq. by injection Heq.
  - rewrite switch_VMap. revert fields.
    induction IH as [|[k i] rest Hi _ IHrest]; intros fields; [discriminate|].
    rewrite flatten_cons. simpl in Hi.
    destruct (switch i fields (with_sep key +:+ k)) as [fields'|msg'] eqn:Hsw; simpl.
    + apply IHrest.
    + intros Heq. injection Heq as <-. by eapply Hi.
Qed.

Lemma add_metrics_panic_msg host port metrics : forall acc acc' msg,
  add_metrics host port metrics acc = (acc', Some msg) ->
  msg = "interface conversion: interface {} is int, not float64".
Proof.
  induction metrics as [|m rest IH]; intros acc acc' msg; [discriminate|]. simpl.
  destruct (flatten (Fields m) ∅ "") as [fields|msg'] eqn:Hfl.
  - apply IH.
  - intros Heq. injection Heq as _ <-. rewrite <- switch_VMap in Hfl.
    by eapply switch_panic_msg.
Qed.

Lemma add_metrics_points host port metrics : forall acc,
  Forall (fun m => int_free (VMap (Fields m)) = true) metrics ->
  add_metrics host port metrics acc = (acc ++ map (metric_point host port) metrics, None).
Proof.
  induction metrics as [|m rest IH]; intros acc Hall.
  - by rewrite app_nil_r.
  - apply Forall_cons in Hall as [Hm Hrest]. simpl.
    rewrite (flatten_store _ _ _ Hm), IH by done. by rewrite <- app_assoc.
Qed.

Lemma add_metrics_appends host port metrics : forall acc,
  add_metrics host port metrics acc =
  (acc ++ (add_metrics host port metrics []).1, (add_metrics host port metrics []).2).
Proof.
  induction metrics as [|m rest IH]; intros acc; simpl.
  - by rewrite app_nil_r.
  - destruct (flatten (Fields m) ∅ "") as [fields|msg]; simpl.
    + rewrite (IH (acc ++ _)), (IH [_]). simpl. by rewrite <- app_assoc.
    + by rewrite app_nil_r.
Qed.

(** X11. [gatherServer] only appends to the accumulator: the points
    already there stay as they are, and what is appended and how the call
    ends do not depend on them. *)
Lemma gatherServer_appends h acc serverURL :
  gatherServer h acc serverURL =
  (acc ++ (gatherServer h [] serverURL).1, (gatherServer h [] serverURL).2).
Proof.
  unfold gatherServer.
  destruct (sendRequest h serverURL) as [[[resp rt] [e|]]|msg];
    try (by rewrite app_nil_r).
  destruct (url_Parse serverURL) as [[u|] err]; [|by rewrite app_nil_r].
  destruct (net_SplitHostPort (Host u)) as [[host port] split_err].
  destruct err; [by rewrite app_nil_r|].
  destruct (json_Unmarshal resp) as [dat [e|]]; [by rewrite app_nil_r|].
  rewrite (add_metrics_appends _ _ _ acc).
  by destruct (add_metrics host port (ResponseMetrics_Metrics dat) []) as [pts [msg|]].
Qed.

Lemma metric_tags_lookup host port m_item :
  metric_tags host port m_item !! "server" = Some host /\
  metric_tags host port m_item !! "port" = Some port /\
  metric_tags host port m_item !! "name" = Some (Name m_item) /\
  metric_tags host port m_item !! "type" = Some (Type_ m_item).
Proof. unfold metric_tags. repeat split; by simplify_map_eq. Qed.

(** C8. When the request succeeds and the body decodes, [gatherServer]
    returns nil and adds one point per metric whatever error
    [net.SplitHostPort] returns for the authority of the URL: the error is
    dropped, and the server and port tags are the two strings the split
    returned, empty when it failed. *)
Theorem gatherServer_split_error_dropped
    h acc serverURL resp responseTime requestURL dat host port split_err :
  sendRequest h serverURL = Done (resp, responseTime, None) ->
  url_Parse serverURL = (Some requestURL, None) ->
  json_Unmarshal resp = (dat, None) ->
  net_SplitHostPort (Host requestURL) = (host, port, split_err) ->
  gatherServer h acc serverURL =
    (acc ++ map (metric_point host port) (ResponseMetrics_Metrics dat), Done ReturnNil) /\
  Forall (fun p => point_tags p !! "server" = Some host /\
                   point_tags p !! "port" = Some port)
         (map (metric_point host port) (ResponseMetrics_Metrics dat)).
Proof.
  intros Hsend Hparse Hjson Hsplit. split.
  - unfold gatherServer. rewrite Hsend, Hparse, Hsplit, Hjson.
    rewrite add_metrics_points; [done|].
    pose proof (json_Unmarshal_float64 resp) as Hfloat. by rewrite Hjson in Hfloat.
  - apply Forall_fmap, Forall_forall. intros m _. simpl.
    by destruct (metric_tags_lookup host port m) as (-> & -> & _).
Qed.

(** C10. When [sendRequest] has returned without error, [url.Parse] of
    the same server URL yields a URL and no error, so in [gatherServer]
    the read of [requestURL.Host] on line 191 does not dereference nil and
    the return on line 194 is never taken. *)
Theorem gatherServer_parse_cannot_fail h serverURL resp responseTime :
  sendRequest h serverURL = Done (resp, responseTime, None) ->
  exists requestURL, url_Parse serverURL = (Some requestURL, None) /\
    forall acc,
      (gatherServer h acc serverURL).2 <>
        Panic "invalid memory address or nil pointer dereference" /\
      forall err, (gatherServer h acc serverURL).2 <> Done (ReturnParse err).
Proof.
  intros Hsend.
  destruct (sendRequest_nil_inv _ _ _ _ Hsend) as (u & req & r & Hparse & _).
  exists u. split; [done|]. intros acc.
  unfold gatherServer. rewrite Hsend, Hparse.
  destruct (net_SplitHostPort (Host u)) as [[host port] split_err].
  destruct (json_Unmarshal resp) as [dat [e|]]; [by split|].
  destruct (add_metrics host port (ResponseMetrics_Metrics dat) acc)
    as [acc' [msg|]] eqn:Hadd; [|by split].
  apply add_metrics_panic_msg in Hadd as ->. by split.
Qed.

(** With a library that keeps its word, neither [sendRequest] nor
    [gatherServer] panics. *)
Lemma sendRequest_returns h serverURL : exists r, sendRequest h serverURL = Done r.
Proof.
  unfold sendRequest, prepare, http_NewRequest.
  pose proof (url_Parse_nil serverURL) as Hnil.
  destruct (url_Parse serverURL) as [[u|] [e|]]; simpl in Hnil;
    try (by eexists); [|by destruct Hnil].
  destruct (strings_Contains _ _).
  - destruct (json_Marshal _) as [b [e|]]; [by eexists|].
    destruct (url_Parse (URL_String u)) as [u' [e|]]; by eexists.
  - destruct (url_Parse (URL_String u)) as [u' [e|]]; by eexists.
Qed.

Lemma gatherServer_returns h acc serverURL :
  exists e, (gatherServer h acc serverURL).2 = Done e.
Proof.
  destruct (sendRequest_returns h serverURL) as [[[resp rt] err] Hsend].
  destruct err as [err|].
  - rewrite (gatherServer_sendRequest_error _ _ _ _ _ _ Hsend). by eexists.
  - destruct (sendRequest_nil_inv _ _ _ _ Hsend) as (u & _ & _ & Hparse & _).
    unfold gatherServer. rewrite Hsend, Hparse.
    destruct (net_SplitHostPort (Host u)) as [[host port] split_err].
    pose proof (json_Unmarshal_float64 resp) as Hfloat.
    destruct (json_Unmarshal resp) as [dat [e|]]; [by eexists|].
    rewrite add_metrics_points by done. by eexists.
Qed.

End requests.

End GraylogFacts.

(** ** The fan-out *)

Module FanoutFacts.
Import Flatten FlattenSpec FlattenFacts Graylog GraylogFacts.

Lemma insert_split {A} (l : list A) i x y :
  l !! i = Some x -> exists l1 l2, l = l1 ++ x :: l2 /\ <[i:=y]> l = l1 ++ y :: l2.
Proof.
  intros Hi. exists (take i l), (drop (S i) l). split.
  - by rewrite take_drop_middle.
  - apply insert_take_drop. by eapply lookup_lt_Some.
Qed.

Section fanout.
Context `{GoLib}.

Lemma failures_cons h server rest :
  failures h (server :: rest) = pending_errors (launch h server) ++ failures h rest.
Proof.
  unfold failures, launch, pending_errors. simpl.
  by destruct (ending_of h server) as [[err|]|msg].
Qed.

Lemma invariant_initial h acc0 : invariant h acc0 (initial h acc0).
Proof.
  constructor; simpl; try done.
  exists []. split; [by rewrite app_nil_r|done].
Qed.

(** A move of one goroutine that hands over some of its points and of
    its pending errors keeps the invariant. *)
Lemma invariant_local h acc0 s s' i g g' dp de :
  invariant h acc0 s -> goroutines s !! i = Some g -> g.2 <> Finished ->
  g'.1 = g.1 -> (position_ok h g -> position_ok h g') ->
  remaining_points g = dp ++ remaining_points g' ->
  pending_errors g = de ++ pending_errors g' ->
  main_pc s' = main_pc s -> goroutines s' = <[i:=g']> (goroutines s) ->
  wg s' = wg s - Z.of_nat (alive g) + Z.of_nat (alive g') ->
  errorChannel s' = errorChannel s ++ de -> accumulator s' = accumulator s ++ dp ->
  crashed s' = crashed s ->
  invariant h acc0 s'.
Proof.
  intros [Hsrv Hpos Hpts Herr Hwg Hret Hcr] Hi Hg Hfst Hok Hrp Hpe Hpc Hgs Hwg' Hch Hacc Hcrash.
  destruct (insert_split _ _ _ g' Hi) as (l1 & l2 & Hl & Hl'). rewrite Hl' in Hgs.
  assert (rest_of s' = rest_of s) as Hrest by (unfold rest_of; by rewrite Hpc).
  rewrite Hl in Hsrv, Hpos, Hpts, Herr, Hwg.
  constructor.
  - rewrite Hrest, Hgs, <- Hsrv, !fmap_app, !fmap_cons. by rewrite Hfst.
  - rewrite Hgs. apply Forall_app in Hpos as [H1 [Hgok H2]%Forall_cons].
    apply Forall_app. split; [done|]. apply Forall_cons. split; [by apply Hok|done].
  - destruct Hpts as (emitted & Hem & Hperm). exists (emitted ++ dp). split.
    + by rewrite Hacc, Hem, app_assoc.
    + rewrite Hrest, Hgs, <- Hperm, !fmap_app, !fmap_cons, !concat_app. simpl.
      rewrite Hrp. rewrite <- !app_assoc. apply Permutation_app_head.
      rewrite !app_assoc. do 3 apply Permutation_app_tail. apply Permutation_app_comm.
  - rewrite Hrest, Hgs, Hch, <- Herr, !fmap_app, !fmap_cons, !concat_app. simpl.
    rewrite Hpe. rewrite <- !app_assoc. apply Permutation_app_head.
    rewrite !app_assoc. do 3 apply Permutation_app_tail. apply Permutation_app_comm.
  - rewrite Hwg', Hwg, Hgs, !sum_list_with_app. simpl. lia.
  - intros result Hres. rewrite Hpc in Hres. destruct (Hret _ Hres) as [_ Hfin].
    rewrite Hl in Hfin. apply Forall_app in Hfin as [_ [Hgfin _]%Forall_cons].
    by destruct Hg.
  - by rewrite Hcrash.
Qed.

Lemma alive_none (l : list (string * position)) :
  sum_list_with alive l = 0%nat <-> Forall (fun g => g.2 = Finished) l.
Proof.
  induction l as [|[server p] l IH]; simpl; [done|].
  rewrite Forall_cons. simpl. rewrite <- IH. unfold alive at 1. simpl.
  destruct p; simpl; split;
    first [ lia | intros [Hp _]; discriminate Hp | by intros [_ ?] | by split ].
Qed.

Lemma invariant_panic h acc0 s i server points msg :
  invariant h acc0 s ->
  goroutines s !! i = Some (server, Gathering points (Panic msg)) ->
  invariant h acc0
    {| main_pc := main_pc s; goroutines := goroutines s; wg := wg s;
       errorChannel := errorChannel s; accumulator := accumulator s;
       crashed := true |}.
Proof.
  intros [Hsrv Hpos Hpts Herr Hwg Hret Hcr] Hi. constructor; try done.
  intros _. exists server, msg. split.
  - rewrite <- Hsrv. apply elem_of_app. left.
    apply list_elem_of_fmap. exists (server, Gathering points (Panic msg)).
    split; [done|]. by eapply list_elem_of_lookup_2.
  - eapply Forall_lookup_1 in Hpos; [|done]. by unfold position_ok in Hpos.
Qed.

(** Every step keeps the invariant. *)
Lemma exec_invariant h acc0 a s s' :
  invariant h acc0 s -> exec h a s = Some s' -> invariant h acc0 s'.
Proof.
  intros Hinv. unfold exec. destruct (crashed s) eqn:Hcrash; [discriminate|].
  destruct a as [|i].
  - destruct (main_pc s) as [[|server rest]|r] eqn:Hpc; try discriminate.
    + case_decide as Hwg0; [|discriminate]. intros [= <-].
      destruct Hinv as [Hsrv Hpos Hpts Herr Hwg Hret Hcr].
      unfold rest_of in *. rewrite Hpc in *.
      constructor; simpl; try done.
      intros result [= <-]. split; [done|]. apply alive_none. lia.
    + intros [= <-]. destruct Hinv as [Hsrv Hpos Hpts Herr Hwg Hret Hcr].
      unfold rest_of in *. rewrite Hpc in *.
      constructor; simpl.
      * by rewrite fmap_app, <- app_assoc.
      * apply Forall_app. split; [done|]. by apply Forall_singleton.
      * destruct Hpts as (emitted & Hem & Hperm). exists emitted. split; [done|].
        rewrite <- Hperm, fmap_app, concat_app, fmap_cons. simpl.
        by rewrite app_nil_r, <- !app_assoc.
      * rewrite <- Herr, failures_cons, fmap_app, concat_app. simpl.
        by rewrite app_nil_r, <- !app_assoc.
      * rewrite Hwg, sum_list_with_app. simpl. lia.
      * discriminate.
      * discriminate.
  - destruct (goroutines s !! i) as [[server p]|] eqn:Hi; [|discriminate].
    destruct p as [[|p points] [[err|]|msg]|err| |]; try discriminate.
    + intros [= <-].
      eapply (invariant_local h acc0 s _ i _ (server, Reporting err) [] []);
        try done;
        unfold alive, position_ok, pending_errors, remaining_points; simpl;
        try done; try lia; try (by rewrite app_nil_r).
    + intros [= <-].
      eapply (invariant_local h acc0 s _ i _ (server, Returning) [] []);
        try done;
        unfold alive, position_ok, pending_errors, remaining_points; simpl;
        try done; try lia; try (by rewrite app_nil_r).
      intros <-. by eexists.
    + intros [= <-]. by eapply invariant_panic.
    + intros [= <-].
      eapply (invariant_local h acc0 s _ i _ (server, Gathering points _) [p] []);
        try done;
        unfold alive, position_ok, pending_errors, remaining_points; simpl;
        try done; try lia; try (by rewrite app_nil_r).
    + intros [= <-].
      eapply (invariant_local h acc0 s _ i _ (server, Gathering points _) [p] []);
        try done;
        unfold alive, position_ok, pending_errors, remaining_points; simpl;
        try done; try lia; try (by rewrite app_nil_r).
    + intros [= <-].
      eapply (invariant_local h acc0 s _ i _ (server, Gathering points _) [p] []);
        try done;
        unfold alive, position_ok, pending_errors, remaining_points; simpl;
        try done; try lia; try (by rewrite app_nil_r).
    + case_decide as Hroom; [|discriminate]. intros [= <-].
      eapply (invariant_local h acc0 s _ i _ (server, Returning) [] [err]);
        try done;
        unfold alive, position_ok, pending_errors, remaining_points; simpl;
        try done; try lia; try (by rewrite app_nil_r).
      intros ->. by eexists.
    + intros [= <-].
      eapply (invariant_local h acc0 s _ i _ (server, Finished) [] []);
        try done;
        unfold alive, position_ok, pending_errors, remaining_points; simpl;
        try done; try lia; try (by rewrite app_nil_r).
Qed.

Lemma reachable_invariant h acc0 s : reachable h acc0 s -> invariant h acc0 s.
Proof.
  unfold reachable. intros Hrun.
  eapply (rtc_ind_r (invariant h acc0)); [|clear s Hrun|exact Hrun].
  - apply invariant_initial.
  - intros s s' _ [a Hexec] IH. by eapply exec_invariant.
Qed.

Lemma run_steps h schedule : forall s, rtc (step h) s (run h schedule s).
Proof.
  induction schedule as [|a schedule IH]; intros s; simpl; [done|].
  destruct (exec h a s) as [s'|] eqn:Hexec; simpl; [|apply IH].
  eapply rtc_l; [by exists a|apply IH].
Qed.

Lemma run_reachable h acc0 schedule s :
  reachable h acc0 s -> reachable h acc0 (run h schedule s).
Proof. intros Hs. eapply rtc_trans; [exact Hs|apply run_steps]. Qed.

(** *** What [Gather] returns *)





Lemma finished_nothing_left (l : list (string * position)) :
  Forall (fun g => g.2 = Finished) l ->
  concat (remaining_points <$> l) = [] /\ concat (pending_errors <$> l) = [].
Proof.
  induction 1 as [|[server p] l Hp _ [IH1 IH2]]; [done|]. simpl in Hp. subst p.
  rewrite !fmap_cons. simpl. by rewrite IH1, IH2.
Qed.

(** Once [Gather] is past [wg.Wait()]: a goroutine was started for every
    server and all are finished; the result is made of the messages of
    the failed servers, in the order they were sent; the accumulator has
    gained the points of every server. *)
Lemma returned_state h acc0 s result :
  reachable h acc0 s -> main_pc s = Returned result ->
  (goroutines s).*1 = Servers h /\
  Forall (fun g => g.2 = Finished) (goroutines s) /\
  Forall (returns h) (Servers h) /\
  (errorChannel s ≡ₚ failures h (Servers h) /\ result = collect (errorChannel s)) /\
  (exists emitted,
     accumulator s = acc0 ++ emitted /\
     emitted ≡ₚ concat (points_of h <$> Servers h)).
Proof.
  intros [Hsrv Hpos Hpts Herr Hwg Hret Hcr]%reachable_invariant Hpc.
  destruct (Hret _ Hpc) as [-> Hfin].
  destruct (finished_nothing_left _ Hfin) as [Hnp Hne].
  unfold rest_of in *. rewrite Hpc in *. rewrite app_nil_r in Hsrv.
  split; [done|]. split; [done|]. split; [|split].
  - rewrite <- Hsrv. apply Forall_fmap, Forall_forall. intros [server p] Hin.
    rewrite Forall_forall in Hfin, Hpos. specialize (Hfin _ Hin). specialize (Hpos _ Hin).
    simpl in Hfin. subst p. exact Hpos.
  - split; [|done].
    rewrite Hne in Herr. simpl in Herr. unfold failures at 1 in Herr. simpl in Herr.
    by rewrite app_nil_r in Herr.
  - destruct Hpts as (emitted & Hem & Hperm). exists emitted. split; [done|].
    rewrite Hnp in Hperm. simpl in Hperm. by rewrite app_nil_r in Hperm.
Qed.

(** *** No goroutine is ever blocked *)

Lemma failures_length h servers : (length (failures h servers) <= length servers)%nat.
Proof.
  induction servers as [|server servers IH]; [done|].
  rewrite failures_cons, length_app. unfold launch, pending_errors. simpl.
  destruct (ending_of h server) as [[err|]|msg]; simpl; lia.
Qed.

(** There is room in [errorChannel] whenever a goroutine is about to
    send: the channel never holds more than one error per server. *)
Lemma channel_has_room h acc0 s i server err :
  invariant h acc0 s -> goroutines s !! i = Some (server, Reporting err) ->
  (length (errorChannel s) < length (Servers h))%nat.
Proof.
  intros [Hsrv Hpos Hpts Herr Hwg Hret Hcr] Hi.
  apply Permutation_length in Herr.
  destruct (insert_split _ _ _ (server, Reporting err) Hi) as (l1 & l2 & Hl & _).
  rewrite Hl, fmap_app, fmap_cons, concat_app in Herr. simpl in Herr.
  rewrite !length_app in Herr. simpl in Herr.
  pose proof (failures_length h (Servers h)). lia.
Qed.

Lemma goroutine_can_move h acc0 s i g :
  invariant h acc0 s -> crashed s = false ->
  goroutines s !! i = Some g -> g.2 <> Finished ->
  is_Some (exec h (Goroutine i) s).
Proof.
  intros Hinv Hcrash Hi Hg. unfold exec. rewrite Hcrash, Hi.
  destruct g as [server [[|p points] [[err|]|msg]|err| |]]; try done.
  rewrite decide_True; [done|]. by eapply channel_has_room.
Qed.

(** *** Every interleaving comes to an end *)

Lemma weight_move (l : list (string * position)) i g g' :
  l !! i = Some g -> (position_weight g'.2 < position_weight g.2)%nat ->
  (sum_list_with (fun g => position_weight g.2) (<[i:=g']> l) <
   sum_list_with (fun g => position_weight g.2) l)%nat.
Proof.
  intros Hi Hlt. destruct (insert_split _ _ _ g' Hi) as (l1 & l2 & Hl & ->).
  rewrite Hl. rewrite !sum_list_with_app. simpl. lia.
Qed.

Lemma exec_weight h a s s' :
  exec h a s = Some s' -> crashed s' = false -> (weight h s' < weight h s)%nat.
Proof.
  unfold exec, weight. destruct (crashed s) eqn:Hcrash; [discriminate|].
  destruct a as [|i].
  - destruct (main_pc s) as [[|server rest]|r] eqn:Hpc; try discriminate.
    + case_decide; [|discriminate]. intros [= <-] _. simpl. lia.
    + intros [= <-] _. simpl. rewrite sum_list_with_app. simpl.
      unfold points_of. lia.
  - destruct (goroutines s !! i) as [[server p]|] eqn:Hi; [|discriminate].
    destruct p as [[|p points] [[err|]|msg]|err| |]; try discriminate;
      try case_decide; try discriminate; intros [= <-] Hc; try discriminate Hc;
      simpl; apply Nat.add_lt_mono_l; eapply weight_move; try done; simpl; lia.
Qed.

Lemma alive_some (l : list (string * position)) :
  sum_list_with alive l <> 0%nat -> exists i g, l !! i = Some g /\ g.2 <> Finished.
Proof.
  induction l as [|[server p] l IH]; simpl; [done|]. intros Hsum.
  destruct p as [points ending|err| |].
  1-3: by eexists 0%nat, (server, _).
  destruct IH as (i & g & Hi & Hg); [by unfold alive in Hsum|].
  by exists (S i), g.
Qed.

Lemma progress h acc0 s :
  invariant h acc0 s -> crashed s = false -> (forall r, main_pc s <> Returned r) ->
  exists a s', exec h a s = Some s'.
Proof.
  intros Hinv Hcrash Hpc.
  destruct (main_pc s) as [[|server rest]|r] eqn:Hmain; [| |by destruct (Hpc r)].
  - destruct (decide (sum_list_with alive (goroutines s) = 0%nat)) as [Hnone|Hsome].
    + exists Main. unfold exec. rewrite Hcrash, Hmain.
      rewrite decide_True; [by eexists|]. rewrite (inv_wg _ _ _ Hinv). lia.
    + destruct (alive_some _ Hsome) as (i & g & Hi & Hg).
      exists (Goroutine i). by eapply goroutine_can_move.
  - exists Main. unfold exec. rewrite Hcrash, Hmain. by eexists.
Qed.

Lemma every_gather_returns h server : returns h server.
Proof.
  unfold returns, ending_of.
  destruct (gatherServer_returns h [] server) as [e ->]. by eexists.
Qed.

(** No goroutine panics: the process never goes down. *)
Lemma no_crash h acc0 s : invariant h acc0 s -> crashed s = false.
Proof.
  intros Hinv. destruct (crashed s) eqn:Hcrash; [|done].
  destruct (inv_crashed _ _ _ Hinv Hcrash) as (server & msg & Hin & Hpanic).
  destruct (every_gather_returns h server) as [err Herr]. congruence.
Qed.


(** *** The client set up on first use *)

Lemma setup_same h h' :
  setup h = inl h' ->
  Servers h' = Servers h /\
  forall acc server, gatherServer h' acc server = gatherServer h acc server.
Proof.
  unfold setup. destruct (HTTPClient_get (client h)); [by intros [= <-]|].
  destruct (GetTLSConfig _ _ _ _) as [tlsCfg [err|]]; [discriminate|].
  intros [= <-]. by split.
Qed.

Lemma setup_failures h h' servers :
  (forall acc server, gatherServer h' acc server = gatherServer h acc server) ->
  failures h' servers = failures h servers.
Proof.
  intros Hsame. induction servers as [|server servers IH]; [done|].
  rewrite !failures_cons, IH. unfold launch, ending_of, points_of. by rewrite Hsame.
Qed.



Lemma Gather_run h h' acc schedule :
  setup h = inl h' ->
  Gather h acc schedule =
    match main_pc (run h' schedule (initial h' acc)) with
    | Returned result => Some (result, accumulator (run h' schedule (initial h' acc)))
    | Looping _ => None
    end.
Proof. unfold Gather. by intros ->. Qed.

(** *** The order of the messages *)




(** A gather that returns an error has added no point. *)
Lemma failed_gather_adds_nothing h server err :
  (gatherServer h [] server).2 = Done err -> err <> ReturnNil ->
  points_of h server = [].
Proof.
  unfold points_of, gatherServer.
  destruct (sendRequest h server) as [[[resp rt] [e|]]|msg]; try done.
  destruct (url_Parse server) as [[u|] e]; [|done].
  destruct (net_SplitHostPort (Host u)) as [[host port] split_err].
  destruct e; [done|].
  destruct (json_Unmarshal resp) as [dat [e|]]; [done|].
  destruct (add_metrics host port (ResponseMetrics_Metrics dat) []) as [pts [msg|]];
    [discriminate|].
  simpl. by intros [= <-].
Qed.

(** *** One goroutine on its own *)




(** *** Starting the goroutines, and leaving the others alone *)





End fanout.
End FanoutFacts.

(** ** The statements on the test double *)

Module Examples.
Import Flatten FlattenSpec Graylog GraylogFacts Fake.

Example encode_user_pass : EncodeToString encodeURL "user:pass" = "dXNlcjpwYXNz".
Proof. reflexivity. Qed.

(** The two alphabets part on the sextets 62 and 63. *)
Example encode_alphabets :
  EncodeToString encodeURL "u:>>?" = "dTo-Pj8=" /\
  EncodeToString encodeStd "u:>>?" = "dTo+Pj8=".
Proof. split; reflexivity. Qed.

Example issued_multiple :
  issued (plugin []) multiple_url = Some (request "POST" multiple_url metrics_body).
Proof. vm_compute. reflexivity. Qed.

Example issued_namespace :
  issued (plugin []) namespace_url = Some (request "GET" namespace_url "").
Proof. vm_compute. reflexivity. Qed.

Lemma sendRequest_method_and_body_witness :
  url_Parse multiple_url = (Some multiple_parsed, None) /\
  (url_Parse (URL_String multiple_parsed)).2 = None /\
  exists req,
    issued (plugin []) multiple_url = Some req /\
    (forall err, MakeRequest (client (plugin [])) req = inr err ->
       sendRequest (plugin []) multiple_url = Done ("", minus_one, Some err)) /\
    (forall resp, MakeRequest (client (plugin [])) req = inl resp ->
       exists err,
         sendRequest (plugin []) multiple_url =
           Done ((Body resp).1, elapsed_Seconds req, err)) /\
    RequestURL req = URL_String multiple_parsed /\
    Method req = "POST" /\
    RequestBody req = metrics_object ["a.b"; "c.d"] /\
    (Forall (fun name => plain name = true) ["a.b"; "c.d"] ->
     RequestBody req = metrics_body).
Proof.
  split; [reflexivity|]. split; [reflexivity|].
  apply (sendRequest_method_and_body (plugin []) multiple_url multiple_parsed);
    reflexivity.
Defined.

(** The same on a namespace endpoint: a GET with an empty body. *)
Example sendRequest_namespace :
  sendRequest (plugin_as "user" "pass" (spy method_and_body)) namespace_url =
    Done ("", minus_one, Some "GET ").
Proof. vm_compute. reflexivity. Qed.

(** C4, as stated, fails when no metric list is configured: [h.Metrics]
    is nil, and the body posted to a multiple endpoint binds the key
    metrics to null, which is not a list of names. The client of this
    plugin reports the method and the body of the request it is handed. *)
Lemma sendRequest_nil_metrics_posts_null :
  Metrics (plugin_no_metrics (spy method_and_body)) = None /\
  strings_Contains multiple_url "multiple" = true /\
  sendRequest (plugin_no_metrics (spy method_and_body)) multiple_url =
    Done ("", minus_one, Some ("POST " +:+ null_object)) /\
  null_object = "{" +:+ quoted "metrics" +:+ ":null}" /\
  forall names, null_object <> metrics_object names.
Proof.
  split; [reflexivity|]. split; [reflexivity|]. split; [vm_compute; reflexivity|].
  split; [reflexivity|].
  intros names Heq. apply (f_equal (String.get 11)) in Heq.
  vm_compute in Heq. discriminate Heq.
Qed.

(** C5 fails on the code: the credentials are encoded with
    [base64.URLEncoding], the URL-safe alphabet, and not with the base64
    alphabet. For the user u with the password two greater-than signs and
    a question mark, the client is handed the header value that ends in
    dTo-Pj8=, where base64 gives dTo+Pj8=. The client of this plugin
    reports the Authorization header of the request it is handed. *)
Theorem sendRequest_basic_auth_url_alphabet :
  sendRequest (plugin_as "u" ">>?" (spy authorization)) namespace_url =
    Done ("", minus_one, Some "Basic dTo-Pj8=") /\
  "Basic " +:+ base64_StdEncoding_EncodeToString ("u" +:+ ":" +:+ ">>?") =
    "Basic dTo+Pj8=".
Proof. split; vm_compute; reflexivity. Qed.

(** Where no sextet is 62 or 63 the two alphabets agree. *)
Example sendRequest_basic_auth_user_pass :
  sendRequest (plugin_as "user" "pass" (spy authorization)) namespace_url =
    Done ("", minus_one, Some "Basic dXNlcjpwYXNz") /\
  base64_StdEncoding_EncodeToString "user:pass" = "dXNlcjpwYXNz".
Proof. split; vm_compute; reflexivity. Qed.

Lemma sendRequest_status_error_witness :
  prepare (plugin []) namespace_url =
    Done (inl (namespace_parsed, request "GET" namespace_url "")) /\
  MakeRequest (client (plugin [])) (request "GET" namespace_url "") = inl server_error /\
  (forall body, Body server_error = (body, None) ->
     (StatusCode server_error <> http_StatusOK ->
        let err :=
          unexpected_status (URL_String namespace_parsed) (StatusCode server_error) in
        sendRequest (plugin []) namespace_url =
          Done (body, elapsed_Seconds (request "GET" namespace_url ""), Some err) /\
        gatherServer (plugin []) [] namespace_url = ([], Done (ReturnSendRequest err)) /\
        contains err (URL_String namespace_parsed) /\
        contains err (pretty (StatusCode server_error)) /\
        contains err "200") /\
     (StatusCode server_error = http_StatusOK ->
        sendRequest (plugin []) namespace_url =
          Done (body, elapsed_Seconds (request "GET" namespace_url ""), None))) /\
  (forall body err, Body server_error = (body, Some err) ->
     sendRequest (plugin []) namespace_url =
       Done (body, elapsed_Seconds (request "GET" namespace_url ""), Some err) /\
     gatherServer (plugin []) [] namespace_url = ([], Done (ReturnSendRequest err))).
Proof.
  assert (prepare (plugin []) namespace_url =
            Done (inl (namespace_parsed, request "GET" namespace_url ""))) as Hprep
    by (vm_compute; reflexivity).
  split; [exact Hprep|]. split; [reflexivity|].
  exact (sendRequest_status_error (plugin []) [] namespace_url namespace_parsed
           (request "GET" namespace_url "") server_error Hprep eq_refl).
Defined.

(** The message for the second endpoint, which answers 500. *)
Example status_error_message :
  sendRequest (plugin []) namespace_url =
    Done ("", f_one,
          Some ("Response from url " +:+ quoted namespace_url +:+
                " has status code 500 (Internal Server Error), expected 200 (OK)")).
Proof. vm_compute. reflexivity. Qed.

(** C6, as stated, fails when the body of a non-200 response cannot be
    read: the fourth endpoint answers 500, [ioutil.ReadAll] fails, and
    [sendRequest] returns the read error, which names neither the URL nor
    a status code. *)
Lemma sendRequest_read_error_hides_status :
  response_to (plugin []) truncated_url = Some truncated /\
  StatusCode truncated = 500 /\
  sendRequest (plugin []) truncated_url = Done ("", f_one, Some "unexpected EOF") /\
  strings_Contains "unexpected EOF" truncated_url = false /\
  strings_Contains "unexpected EOF" "500" = false /\
  strings_Contains "unexpected EOF" "200" = false.
Proof. repeat split; vm_compute; reflexivity. Qed.

Example invalid_url :
  sendRequest (plugin []) bad_url = Done ("", minus_one, Some (invalid_server_URL bad_url)).
Proof. vm_compute. reflexivity. Qed.

Example sample_response :
  sendRequest (plugin []) noport_url = Done (sample_body, f_one, None).
Proof. vm_compute. reflexivity. Qed.

Lemma gatherServer_split_error_dropped_witness :
  sendRequest (plugin []) noport_url = Done (sample_body, f_one, None) /\
  url_Parse noport_url = (Some noport_parsed, None) /\
  json_Unmarshal sample_body = ({| ResponseMetrics_Metrics := [sample_metric] |}, None) /\
  net_SplitHostPort (Host noport_parsed) =
    ("", "", Some "address graylog: missing port in address") /\
  gatherServer (plugin []) [] noport_url =
    ([] ++ map (metric_point "" "") [sample_metric], Done ReturnNil) /\
  Forall (fun p => point_tags p !! "server" = Some "" /\ point_tags p !! "port" = Some "")
         (map (metric_point "" "") [sample_metric]).
Proof.
  split; [exact sample_response|]. split; [reflexivity|]. split; [reflexivity|].
  split; [reflexivity|].
  exact (gatherServer_split_error_dropped (plugin []) [] noport_url sample_body f_one
           noport_parsed {| ResponseMetrics_Metrics := [sample_metric] |} "" ""
           (Some "address graylog: missing port in address")
           sample_response eq_refl eq_refl eq_refl).
Defined.

Lemma gatherServer_parse_cannot_fail_witness :
  sendRequest (plugin []) noport_url = Done (sample_body, f_one, None) /\
  exists requestURL, url_Parse noport_url = (Some requestURL, None) /\
    forall acc,
      (gatherServer (plugin []) acc noport_url).2 <>
        Panic "invalid memory address or nil pointer dereference" /\
      forall err, (gatherServer (plugin []) acc noport_url).2 <> Done (ReturnParse err).
Proof.
  split; [exact sample_response|].
  exact (gatherServer_parse_cannot_fail (plugin []) noport_url sample_body f_one
           sample_response).
Defined.

Example Gather_two_servers :
  Gather (plugin two_servers) [] (one_by_one 2 5) =
    Some (Some (unexpected_status namespace_url 500),
          [metric_point "graylog" "12900" sample_metric]).
Proof. vm_compute. reflexivity. Qed.

(** With two failing servers the messages are joined in the order of the
    sends, which follows the schedule. *)
Example sends_last_first :
  sends (configured three_servers) last_first (initial (configured three_servers) []) =
    [invalid_server_URL bad_url; unexpected_status namespace_url 500] /\
  Gather (plugin three_servers) [] last_first =
    Some (Some (invalid_server_URL bad_url +:+ nl +:+ unexpected_status namespace_url 500),
          [metric_point "graylog" "12900" sample_metric]) /\
  failures (plugin three_servers) three_servers =
    [unexpected_status namespace_url 500; invalid_server_URL bad_url].
Proof. repeat split; vm_compute; reflexivity. Qed.



(** The second goroutine has sent its error and finished while the first
    one has not taken a step. *)
Example second_goroutine_first :
  let s := run (configured two_servers) second_first (initial (configured two_servers) []) in
  goroutines s !! 1%nat = Some (namespace_url, Finished) /\
  goroutines s !! 0%nat =
    Some (multiple_url,
          Gathering [metric_point "graylog" "12900" sample_metric] (Done None)) /\
  errorChannel s = [unexpected_status namespace_url 500] /\
  wg s = 1 /\ main_pc s = Looping [] /\
  exec (configured two_servers) Main s = None.
Proof. vm_compute. repeat split; reflexivity. Qed.



End Examples.

(** ** More on the flattening algorithm *)

Module FlattenMore.
Import Flatten FlattenSpec FlattenFacts.

(** The writes, last one first, seen as a mapping laid over [fields]. *)
Lemma store_reverse ws : forall fields : gmap string value,
  store fields ws = list_to_map (reverse ws) ∪ fields.
Proof.
  induction ws as [|[k v] ws IH] using rev_ind; intros fields.
  - change (fields = ∅ ∪ fields). by rewrite (left_id_L ∅ (∪)).
  - unfold store. rewrite foldl_snoc. fold (store fields ws).
    rewrite reverse_snoc, list_to_map_cons, IH. simpl.
    by rewrite insert_union_l.
Qed.

Lemma flatten_Done_int_free item fields id out :
  flatten item fields id = Done out -> int_free (VMap item) = true.
Proof.
  intros Hfl. destruct (int_free (VMap item)) eqn:Hfree; [done|].
  rewrite <- switch_VMap in Hfl.
  destruct (switch_int_panics (VMap item) fields id Hfree) as [msg Hp]. congruence.
Qed.




Lemma flatten_int_always_panics_witness :
  int_free (VMap [("ok", VFloat f_one); ("deep", VMap [("n", VInt 7)])]) = false /\
  exists msg,
    flatten [("ok", VFloat f_one); ("deep", VMap [("n", VInt 7)])]
      {["seen" := VFloat f_two]} "jvm" = Panic msg.
Proof.
  split; [reflexivity|].
  apply (flatten_int_always_panics
           [("ok", VFloat f_one); ("deep", VMap [("n", VInt 7)])]). reflexivity.
Defined.

(** *** The order of iteration *)

Lemma leaves_int_free (i : value) :
  (forall path v, (path, v) ∈ leaves_of i -> is_float v = true) -> int_free i = true.
Proof.
  induction i as [n|f|m IH|s|b|l|] using value_ind; intros Hall; try reflexivity.
  - specialize (Hall [] (VInt n)). simpl in Hall. apply Hall, list_elem_of_here.
  - revert Hall. induction IH as [|[k i] rest Hi _ IHrest]; intros Hall; [reflexivity|].
    rewrite int_free_cons. apply andb_true_intro. split.
    + apply Hi. intros path v Hin. apply (Hall (k :: path) v).
      rewrite leaves_of_cons. apply elem_of_app. left.
      apply list_elem_of_fmap. by exists (path, v).
    + apply IHrest. intros path v Hin. apply (Hall path v).
      rewrite leaves_of_cons. apply elem_of_app. by right.
Qed.

Lemma store_Permutation ws ws' (fields : gmap string value) :
  ws ≡ₚ ws' -> NoDup ws.*1 -> store fields ws = store fields ws'.
Proof.
  intros Hperm Hnd. rewrite !store_reverse. f_equal.
  apply list_to_map_proper.
  - by rewrite fmap_reverse, reverse_Permutation.
  - by rewrite !reverse_Permutation.
Qed.

(** X3. When no two leaves are written to the same key, the result of
    [flatten] does not depend on the order in which the maps are visited,
    at any depth: two entry lists with the same leaves give the same
    output. *)
Theorem flatten_order_irrelevant item item' fields id :
  leaves item ≡ₚ leaves item' ->
  int_free (VMap item) = true ->
  NoDup (writes (VMap item) id).*1 ->
  flatten item' fields id = flatten item fields id.
Proof.
  intros Hperm Hfree Hnd.
  assert (int_free (VMap item') = true) as Hfree'.
  { apply leaves_int_free. intros path v Hin. fold (leaves item') in Hin.
    rewrite <- Hperm in Hin. by eapply (leaves_float (VMap item)). }
  rewrite !flatten_store by done. f_equal. symmetry.
  apply store_Permutation; [|done].
  unfold writes. fold (leaves item) (leaves item'). by apply fmap_Permutation.
Qed.

Lemma flatten_order_irrelevant_witness :
  leaves sample_fields ≡ₚ leaves sample_fields' /\
  int_free (VMap sample_fields) = true /\
  NoDup (writes (VMap sample_fields) "").*1 /\
  flatten sample_fields' ∅ "" = flatten sample_fields ∅ "".
Proof.
  assert (leaves sample_fields ≡ₚ leaves sample_fields') as Hperm
    by (vm_compute; apply perm_swap).
  assert (NoDup (writes (VMap sample_fields) "").*1) as Hnd
    by (apply (bool_decide_unpack _); vm_compute; exact I).
  split; [exact Hperm|]. split; [reflexivity|]. split; [exact Hnd|].
  exact (flatten_order_irrelevant sample_fields sample_fields' ∅ "" Hperm eq_refl Hnd).
Defined.

(** X21. The result of [flatten] depends on a mapping only through its
    numeric leaves and the order in which they are visited: strings,
    booleans, lists, nulls and empty nested mappings can be added or
    removed without any effect. *)
Theorem flatten_leaves_only item item' fields id :
  leaves item' = leaves item -> int_free (VMap item) = true ->
  flatten item' fields id = flatten item fields id.
Proof.
  intros Hleaves Hfree.
  assert (int_free (VMap item') = true) as Hfree'.
  { apply leaves_int_free. intros path v Hin. fold (leaves item') in Hin.
    rewrite Hleaves in Hin. by eapply (leaves_float (VMap item)). }
  rewrite !flatten_store by done. unfold writes. fold (leaves item) (leaves item').
  by rewrite Hleaves.
Qed.

Lemma flatten_leaves_only_witness :
  leaves [("s", VString "up"); ("x", VFloat f_one); ("e", VMap []); ("b", VBool true);
          ("y", VMap [("n", VNil); ("z", VFloat f_two_and_half); ("l", VList [])])]
    = leaves sample_fields /\
  int_free (VMap sample_fields) = true /\
  flatten [("s", VString "up"); ("x", VFloat f_one); ("e", VMap []); ("b", VBool true);
           ("y", VMap [("n", VNil); ("z", VFloat f_two_and_half); ("l", VList [])])]
    ∅ "" = flatten sample_fields ∅ "".
Proof.
  split; [reflexivity|]. split; [reflexivity|].
  apply (flatten_leaves_only sample_fields); reflexivity.
Defined.

(** *** Prefixes *)

#[local] Instance prefixed_inj (id : string) : Inj (=) (=) (prefixed id).
Proof. unfold prefixed. apply _. Qed.

Lemma store_kmap (id : string) ws : forall fields : gmap string value,
  store (kmap (prefixed id) fields) (prod_map (prefixed id) (fun v => v) <$> ws) =
  kmap (prefixed id) (store fields ws).
Proof.
  induction ws as [|[k v] ws IH]; intros fields; [done|].
  rewrite fmap_cons, (store_cons fields), <- IH, kmap_insert; [reflexivity|apply _].
Qed.

Lemma key_of_prefixed_top (item : gomap) id path v :
  id <> "" -> top_keys_named item = true -> (path, v) ∈ leaves item ->
  key_of id path = prefixed id (key_of "" path).
Proof.
  intros Hid Htop Hin. rewrite (key_of_leaf item path v Htop Hin).
  destruct (leaves_inv _ _ _ Hin) as (k & i & rest & _ & -> & _).
  rewrite key_of_prefixed by done. unfold prefixed. by rewrite append_assoc.
Qed.

Lemma writes_prefixed (item : gomap) id :
  id <> "" -> top_keys_named item = true ->
  writes (VMap item) id = prod_map (prefixed id) (fun v => v) <$> writes (VMap item) "".
Proof.
  intros Hid Htop. unfold writes. fold (leaves item). rewrite <- list_fmap_compose.
  apply list_fmap_ext. intros _ [path v] Hin%list_elem_of_lookup_2. simpl.
  unfold prod_map. simpl. f_equal. by eapply key_of_prefixed_top.
Qed.

Lemma writes_Permutation item item' id :
  leaves item ≡ₚ leaves item' -> writes (VMap item) id ≡ₚ writes (VMap item') id.
Proof.
  intros Hperm. unfold writes. fold (leaves item) (leaves item').
  by apply fmap_Permutation.
Qed.

Lemma leaves_Permutation_int_free item item' :
  leaves item ≡ₚ leaves item' -> int_free (VMap item) = true ->
  int_free (VMap item') = true.
Proof.
  intros Hperm Hfree. apply leaves_int_free. intros path v Hin.
  fold (leaves item') in Hin. rewrite <- Hperm in Hin.
  by eapply (leaves_float (VMap item)).
Qed.

(** X4. Flattening below a non-empty prefix is flattening with the empty
    prefix and then putting the prefix and an underscore before every
    key, when no two leaves are written to the same key; the two calls
    may visit the maps in different orders. So a nested mapping
    contributes its own flattening under the key it is stored at. (No
    nested mapping under an empty top-level key.) *)
Theorem flatten_prefixed item item' id out :
  id <> "" -> top_keys_named item = true ->
  leaves item ≡ₚ leaves item' ->
  NoDup (writes (VMap item) "").*1 ->
  flatten item ∅ "" = Done out ->
  flatten item' ∅ id = Done (kmap (prefixed id) out).
Proof.
  intros Hid Htop Hperm Hnd Hfl.
  pose proof (flatten_Done_int_free _ _ _ _ Hfl) as Hfree.
  rewrite (flatten_store _ _ _ Hfree) in Hfl. injection Hfl as <-.
  rewrite (flatten_store _ _ _ (leaves_Permutation_int_free _ _ Hperm Hfree)). f_equal.
  rewrite <- (store_Permutation (writes (VMap item) id)).
  - rewrite (writes_prefixed item id Hid Htop), <- store_kmap. by rewrite kmap_empty.
  - by apply writes_Permutation.
  - rewrite (writes_prefixed item id Hid Htop).
    assert ((prod_map (prefixed id) (fun v => v) <$> writes (VMap item) "").*1 =
            prefixed id <$> (writes (VMap item) "").*1) as ->.
    { rewrite <- !list_fmap_compose. apply list_fmap_ext. by intros _ [k v] _. }
    by apply (NoDup_fmap_2 _).
Qed.

Lemma flatten_prefixed_witness :
  "jvm" <> "" /\ top_keys_named sample_fields = true /\
  leaves sample_fields ≡ₚ leaves sample_fields' /\
  NoDup (writes (VMap sample_fields) "").*1 /\
  flatten sample_fields ∅ "" =
    Done (<["y_z" := VFloat f_two_and_half]> {["x" := VFloat f_one]}) /\
  flatten sample_fields' ∅ "jvm" =
    Done (kmap (prefixed "jvm")
            (<["y_z" := VFloat f_two_and_half]> {["x" := VFloat f_one]}
             : gmap string value)).
Proof.
  assert (leaves sample_fields ≡ₚ leaves sample_fields') as Hperm
    by (vm_compute; apply perm_swap).
  assert (NoDup (writes (VMap sample_fields) "").*1) as Hnd
    by (apply (bool_decide_unpack _); vm_compute; exact I).
  split; [discriminate|]. split; [reflexivity|]. split; [exact Hperm|].
  split; [exact Hnd|]. split; [reflexivity|].
  apply (flatten_prefixed sample_fields sample_fields' "jvm");
    [discriminate|reflexivity|exact Hperm|exact Hnd|reflexivity].
Defined.

(** Where two leaves are written to one key the two calls can differ:
    visited in the other order, the colliding document keeps the other
    leaf below the prefix. *)
Remark flatten_prefixed_collision :
  leaves colliding ≡ₚ leaves colliding' /\
  flatten colliding ∅ "" = Done {["a_b" := VFloat f_two]} /\
  flatten colliding' ∅ "p" = Done {["p_a_b" := VFloat f_one]}.
Proof. split; [vm_compute; apply perm_swap|]. split; reflexivity. Qed.

(** *** Flattening twice *)

(** X5. Flattening the same mapping a second time into the output of the
    first call changes nothing, in whatever order the second call visits
    the maps, when no two leaves are written to the same key. *)
Theorem flatten_again item item' fields id out :
  flatten item fields id = Done out ->
  leaves item ≡ₚ leaves item' ->
  NoDup (writes (VMap item) id).*1 ->
  flatten item' out id = Done out.
Proof.
  intros Hfl Hperm Hnd. pose proof (flatten_Done_int_free _ _ _ _ Hfl) as Hfree.
  rewrite (flatten_store _ _ _ Hfree) in Hfl. injection Hfl as <-.
  rewrite (flatten_store _ _ _ (leaves_Permutation_int_free _ _ Hperm Hfree)). f_equal.
  rewrite <- (store_Permutation (writes (VMap item) id));
    [|by apply writes_Permutation|done].
  rewrite !store_reverse.
  by rewrite (assoc_L (∪)), (idemp_L (∪)).
Qed.

Lemma flatten_again_witness :
  flatten sample_fields {["seen" := VFloat f_two]} "jvm" =
    Done (<["jvm_y_z" := VFloat f_two_and_half]>
            (<["jvm_x" := VFloat f_one]> {["seen" := VFloat f_two]})) /\
  leaves sample_fields ≡ₚ leaves sample_fields' /\
  NoDup (writes (VMap sample_fields) "jvm").*1 /\
  flatten sample_fields'
    (<["jvm_y_z" := VFloat f_two_and_half]>
       (<["jvm_x" := VFloat f_one]> {["seen" := VFloat f_two]})) "jvm" =
    Done (<["jvm_y_z" := VFloat f_two_and_half]>
            (<["jvm_x" := VFloat f_one]> {["seen" := VFloat f_two]})).
Proof.
  assert (leaves sample_fields ≡ₚ leaves sample_fields') as Hperm
    by (vm_compute; apply perm_swap).
  assert (NoDup (writes (VMap sample_fields) "jvm").*1) as Hnd
    by (apply (bool_decide_unpack _); vm_compute; exact I).
  split; [reflexivity|]. split; [exact Hperm|]. split; [exact Hnd|].
  apply (flatten_again sample_fields sample_fields' {["seen" := VFloat f_two]} "jvm");
    [reflexivity|exact Hperm|exact Hnd].
Defined.

(** Where two leaves are written to one key a second call can change the
    output: it visits the colliding document in the other order, and the
    other leaf wins. *)
Remark flatten_again_collision :
  leaves colliding ≡ₚ leaves colliding' /\
  flatten colliding ∅ "" = Done {["a_b" := VFloat f_two]} /\
  flatten colliding' {["a_b" := VFloat f_two]} "" = Done {["a_b" := VFloat f_one]}.
Proof. split; [vm_compute; apply perm_swap|]. split; reflexivity. Qed.

End FlattenMore.

(** ** More on requests and on one endpoint *)

Module GraylogMore.
Import Flatten FlattenSpec FlattenFacts Graylog GraylogFacts.

Section more.
Context `{GoLib}.

(** X6. [sendRequest] returns a nil error exactly when a request was
    handed to the client, the client answered, the body was read without
    error and the status code is 200; it then returns the body read and
    the time the exchange took. *)
Theorem sendRequest_nil_iff h serverURL body responseTime :
  sendRequest h serverURL = Done (body, responseTime, None) <->
  exists req resp,
    issued h serverURL = Some req /\
    MakeRequest (client h) req = inl resp /\
    Body resp = (body, None) /\
    StatusCode resp = http_StatusOK /\
    responseTime = elapsed_Seconds req.
Proof.
  split.
  - intros Hsend.
    destruct (sendRequest_nil_inv _ _ _ _ Hsend) as (u & req & r & _ & Hprep & Hmk & Hb & Hc).
    exists req, r. split; [apply issued_Some; by exists u|].
    repeat split; try done.
    rewrite (sendRequest_issued _ _ _ _ Hprep), (exchange_read _ _ _ _ _ Hmk Hb) in Hsend.
    by injection Hsend as <-.
  - intros (req & resp & [u Hprep]%issued_Some & Hmk & Hb & Hc & ->).
    rewrite (sendRequest_issued _ _ _ _ Hprep), (exchange_read _ _ _ _ _ Hmk Hb).
    by rewrite decide_False by (intros Hne; by apply Hne).
Qed.

(** X7. When [url.Parse] refuses the server URL, no request is handed to
    the client; the error says Invalid server URL and quotes the URL, the
    error of the parser itself being dropped; and [gatherServer] returns
    it with the accumulator untouched. *)
Theorem sendRequest_invalid_url h serverURL requestURL err :
  url_Parse serverURL = (requestURL, Some err) ->
  issued h serverURL = None /\
  sendRequest h serverURL = Done ("", minus_one, Some (invalid_server_URL serverURL)) /\
  contains (invalid_server_URL serverURL) serverURL /\
  forall acc, gatherServer h acc serverURL =
    (acc, Done (ReturnSendRequest (invalid_server_URL serverURL))).
Proof.
  intros Hparse.
  assert (prepare h serverURL =
          Done (inr ("", minus_one, Some (invalid_server_URL serverURL)))) as Hprep.
  { unfold prepare. rewrite Hparse. by destruct requestURL. }
  assert (sendRequest h serverURL =
          Done ("", minus_one, Some (invalid_server_URL serverURL))) as Hsend.
  { unfold sendRequest. by rewrite Hprep. }
  split; [unfold issued; by rewrite Hprep|]. split; [done|]. split.
  - unfold invalid_server_URL. do 2 apply contains_app_l. apply contains_here.
  - intros acc. by eapply gatherServer_sendRequest_error.
Qed.

(** X8. When the client fails to make the request, [sendRequest] returns
    the error of the client as it is, with an empty body and -1 for the
    response time, and [gatherServer] returns it with the accumulator
    untouched. *)
Theorem sendRequest_transport_error h serverURL req err :
  issued h serverURL = Some req ->
  MakeRequest (client h) req = inr err ->
  sendRequest h serverURL = Done ("", minus_one, Some err) /\
  forall acc, gatherServer h acc serverURL = (acc, Done (ReturnSendRequest err)).
Proof.
  intros [u Hprep]%issued_Some Hmk.
  assert (sendRequest h serverURL = Done ("", minus_one, Some err)) as Hsend.
  { rewrite (sendRequest_issued _ _ _ _ Hprep). unfold exchange. by rewrite Hmk. }
  split; [done|]. intros acc. by eapply gatherServer_sendRequest_error.
Qed.


(** X10. Every request handed to the client carries exactly three
    headers, each with a single value: Content-Type and Accept asking for
    JSON, and Authorization; and this is so in whatever order the loop
    over [headers] visits them. *)
Theorem sendRequest_headers h serverURL req :
  issued h serverURL = Some req ->
  Header req =
    <["Authorization" :=
        ["Basic " +:+
         base64_URLEncoding_EncodeToString (Username h +:+ ":" +:+ Password h)]]>
      (<["Accept" := ["application/json"]]>
         {["Content-Type" := ["application/json"]]}) /\
  forall entries, entries ≡ₚ map_to_list (request_headers h) ->
    add_headers entries ∅ = Header req.
Proof.
  intros [requestURL Hprep]%issued_Some.
  destruct (prepare_request_inv _ _ _ _ Hprep) as (_ & _ & -> & _).
  assert (forall entries, entries ≡ₚ map_to_list (request_headers h) ->
            add_headers entries ∅ = (fun v => [v]) <$> request_headers h) as Hany.
  { intros entries Hperm. apply map_eq. intros k.
    by rewrite (add_headers_any_order (request_headers h)), lookup_fmap. }
  split.
  - rewrite Hany by done. unfold request_headers.
    by rewrite !fmap_insert, map_fmap_singleton.
  - intros entries Hperm. by rewrite !Hany.
Qed.

(** *** One endpoint *)

(** X12. A gather that returns an error, from the request or from the
    decoding of the body, leaves the accumulator as it was: no point of a
    failed endpoint is added. *)
Theorem gatherServer_error_adds_nothing h acc serverURL acc' e :
  gatherServer h acc serverURL = (acc', Done e) -> exit_error e <> None -> acc' = acc.
Proof.
  unfold gatherServer.
  destruct (sendRequest h serverURL) as [[[resp rt] [err|]]|msg];
    try (by intros [= <- _]).
  destruct (url_Parse serverURL) as [[u|] err]; [|by intros [= <- _]].
  destruct (net_SplitHostPort (Host u)) as [[host port] split_err].
  destruct err; [by intros [= <- _]|].
  destruct (json_Unmarshal resp) as [dat [err|]]; [by intros [= <- _]|].
  destruct (add_metrics host port (ResponseMetrics_Metrics dat) acc) as [pts [msg|]];
    [discriminate|].
  intros [= _ <-] Hne. by destruct Hne.
Qed.

(** X13. [gatherServer] never panics: the assertion on [int] values in
    [flatten] is out of reach of a decoded body, and the URL read on line
    191 is never nil. *)
Theorem gatherServer_never_panics h acc serverURL msg :
  (gatherServer h acc serverURL).2 <> Panic msg.
Proof.
  destruct (gatherServer_returns h acc serverURL) as [e He]. by rewrite He.
Qed.

(** X14. [gatherServer] returns nil exactly when [sendRequest] returns no
    error and the body it returned decodes. *)
Theorem gatherServer_nil_iff h acc serverURL :
  (gatherServer h acc serverURL).2 = Done ReturnNil <->
  exists body responseTime,
    sendRequest h serverURL = Done (body, responseTime, None) /\
    (json_Unmarshal body).2 = None.
Proof.
  split.
  - unfold gatherServer.
    destruct (sendRequest h serverURL) as [[[resp rt] [err|]]|msg]; try discriminate.
    destruct (url_Parse serverURL) as [[u|] err]; [|discriminate].
    destruct (net_SplitHostPort (Host u)) as [[host port] split_err].
    destruct err; [discriminate|].
    destruct (json_Unmarshal resp) as [dat [err|]] eqn:Hjson; [discriminate|].
    intros _. exists resp, rt. by rewrite Hjson.
  - intros (body & rt & Hsend & Hjson).
    destruct (sendRequest_nil_inv _ _ _ _ Hsend) as (u & _ & _ & Hparse & _).
    unfold gatherServer. rewrite Hsend, Hparse.
    destruct (net_SplitHostPort (Host u)) as [[host port] split_err].
    pose proof (json_Unmarshal_float64 body) as Hfloat.
    destruct (json_Unmarshal body) as [dat err]. simpl in Hjson. subst err.
    by rewrite add_metrics_points.
Qed.

End more.

Import Fake.

Lemma sendRequest_invalid_url_witness :
  url_Parse bad_url =
    (None, Some ("parse " +:+ bad_url +:+ ": invalid character in host name")) /\
  issued (plugin []) bad_url = None /\
  sendRequest (plugin []) bad_url =
    Done ("", minus_one, Some (invalid_server_URL bad_url)) /\
  contains (invalid_server_URL bad_url) bad_url /\
  forall acc, gatherServer (plugin []) acc bad_url =
    (acc, Done (ReturnSendRequest (invalid_server_URL bad_url))).
Proof.
  split; [reflexivity|].
  apply (sendRequest_invalid_url (plugin []) bad_url None
           ("parse " +:+ bad_url +:+ ": invalid character in host name")).
  reflexivity.
Defined.

Lemma sendRequest_transport_error_witness :
  issued (plugin []) down_url = Some (request "GET" down_url "") /\
  MakeRequest (client (plugin [])) (request "GET" down_url "") =
    inr "dial tcp: connection refused" /\
  sendRequest (plugin []) down_url =
    Done ("", minus_one, Some "dial tcp: connection refused") /\
  forall acc, gatherServer (plugin []) acc down_url =
    (acc, Done (ReturnSendRequest "dial tcp: connection refused")).
Proof.
  assert (issued (plugin []) down_url = Some (request "GET" down_url "")) as Hissued
    by (vm_compute; reflexivity).
  split; [exact Hissued|]. split; [reflexivity|].
  exact (sendRequest_transport_error (plugin []) down_url (request "GET" down_url "")
           "dial tcp: connection refused" Hissued eq_refl).
Defined.


Lemma sendRequest_headers_witness :
  issued (plugin []) namespace_url = Some (request "GET" namespace_url "") /\
  Header (request "GET" namespace_url "") =
    <["Authorization" := ["Basic dXNlcjpwYXNz"]]>
      (<["Accept" := ["application/json"]]>
         {["Content-Type" := ["application/json"]]}) /\
  forall entries, entries ≡ₚ map_to_list (request_headers (plugin [])) ->
    add_headers entries ∅ = Header (request "GET" namespace_url "").
Proof.
  assert (issued (plugin []) namespace_url = Some (request "GET" namespace_url ""))
    as Hissued by (vm_compute; reflexivity).
  split; [exact Hissued|].
  exact (sendRequest_headers (plugin []) namespace_url _ Hissued).
Defined.

Lemma gatherServer_error_adds_nothing_witness :
  gatherServer (plugin []) [metric_point "" "" sample_metric] namespace_url =
    ([metric_point "" "" sample_metric],
     Done (ReturnSendRequest (unexpected_status namespace_url 500))) /\
  exit_error (ReturnSendRequest (unexpected_status namespace_url 500)) <> None /\
  [metric_point "" "" sample_metric] = [metric_point "" "" sample_metric].
Proof.
  assert (gatherServer (plugin []) [metric_point "" "" sample_metric] namespace_url =
            ([metric_point "" "" sample_metric],
             Done (ReturnSendRequest (unexpected_status namespace_url 500)))) as Hg
    by (vm_compute; reflexivity).
  split; [exact Hg|]. split; [discriminate|].
  apply (gatherServer_error_adds_nothing (plugin []) _ namespace_url _ _ Hg). discriminate.
Defined.

End GraylogMore.

(** ** More on the fan-out *)

Module FanoutMore.
Import Flatten FlattenSpec Graylog GraylogFacts FanoutFacts FanoutSpec.

Section more.
Context `{GoLib}.

(** X15. The fan-out never deadlocks: in any state an interleaving leads
    to, either [Gather] has returned or some actor can take a step. *)
Theorem Gather_never_deadlocks h acc schedule :
  let s := run h schedule (initial h acc) in
  (exists result, main_pc s = Returned result) \/
  (exists a s', exec h a s = Some s').
Proof.
  intros s.
  assert (reachable h acc s) as Hs by apply run_reachable, rtc_refl.
  pose proof (reachable_invariant _ _ _ Hs) as Hinv.
  destruct (main_pc s) as [rest|r] eqn:Hpc; [right|left; by exists r].
  apply (progress h acc s Hinv); [by eapply no_crash|].
  intros r. by rewrite Hpc.
Qed.

Lemma moves_bounded h acc0 schedule : forall s,
  reachable h acc0 s -> (moves h schedule s <= weight h s)%nat.
Proof.
  induction schedule as [|a schedule IH]; intros s Hs; simpl; [lia|].
  destruct (exec h a s) as [s'|] eqn:Hexec; [|by apply IH].
  assert (reachable h acc0 s') as Hs' by (eapply rtc_r; [exact Hs|by exists a]).
  pose proof (exec_weight _ _ _ _ Hexec (no_crash _ _ _ (reachable_invariant _ _ _ Hs'))).
  specialize (IH s' Hs'). lia.
Qed.

(** X16. The fan-out comes to an end whatever the scheduler does: along
    any schedule, the actors move at most once for [Gather]'s return and,
    per server, four times plus the number of points its gather adds. *)
Theorem Gather_steps_bounded h acc schedule :
  (moves h schedule (initial h acc) <=
   S (sum_list_with (fun server => length (points_of h server) + 4) (Servers h)))%nat.
Proof.
  pose proof (moves_bounded h acc schedule (initial h acc) (rtc_refl _ _)) as Hb.
  unfold weight in Hb. simpl in Hb. lia.
Qed.

Lemma contains_refl (x : string) : contains x x.
Proof.
  exists "", "". induction x as [|c x IH]; [done|].
  change (String c x = String c ("" +:+ x +:+ "")). by rewrite <- IH.
Qed.

Lemma strings_Join_contains elems sep e :
  e ∈ elems -> contains (strings_Join elems sep) e.
Proof.
  induction elems as [|e1 [|e2 rest] IH]; intros Hin.
  - by apply elem_of_nil in Hin.
  - apply list_elem_of_singleton in Hin as ->. apply contains_refl.
  - change (strings_Join (e1 :: e2 :: rest) sep)
      with (e1 +:+ sep +:+ strings_Join (e2 :: rest) sep).
    apply elem_of_cons in Hin as [->|Hin]; [apply contains_here|].
    do 2 apply contains_app_l. by apply IH.
Qed.

Lemma failures_elem_of h servers e :
  e ∈ failures h servers <->
  exists server, server ∈ servers /\ ending_of h server = Done (Some e).
Proof.
  unfold failures. rewrite list_elem_of_omap. split.
  - intros (server & Hin & Hend). exists server. split; [done|].
    by destruct (ending_of h server) as [[err|]|msg]; simplify_eq.
  - intros (server & Hin & Hend). exists server. split; [done|]. by rewrite Hend.
Qed.

Lemma setup_ending h h' server :
  (forall acc server, gatherServer h' acc server = gatherServer h acc server) ->
  ending_of h' server = ending_of h server /\ points_of h' server = points_of h server.
Proof. intros Hsame. unfold ending_of, points_of. by rewrite Hsame. Qed.

(** What a returning run of [Gather] ends with, in terms of the plugin
    [Gather] was called on. *)
Lemma Gather_Some h h' acc schedule result acc' :
  setup h = inl h' -> Gather h acc schedule = Some (result, acc') ->
  let s := run h' schedule (initial h' acc) in
  main_pc s = Returned result /\ accumulator s = acc' /\
  Servers h' = Servers h /\
  (forall acc server, gatherServer h' acc server = gatherServer h acc server) /\
  exists errorStrings,
    errorStrings ≡ₚ failures h (Servers h) /\ result = collect errorStrings.
Proof.
  intros Hsetup. rewrite (Gather_run _ _ _ _ Hsetup).
  destruct (setup_same _ _ Hsetup) as [Hservers Hsame].
  destruct (main_pc (run h' schedule (initial h' acc))) as [rest|r] eqn:Hpc;
    [discriminate|].
  intros [= -> <-]. cbv zeta. split; [done|]. split; [done|]. split; [done|].
  split; [done|].
  destruct (returned_state h' acc _ result (run_reachable _ _ _ _ (rtc_refl _ _)) Hpc)
    as (_ & _ & _ & (Hperm & ->) & _).
  eexists. split; [|done].
  by rewrite Hperm, Hservers, (setup_failures h h').
Qed.

(** X17. When [Gather] returns an error after the fan-out, its message
    holds the message of every server whose gather failed, whatever the
    schedule. *)
Theorem Gather_message_holds_failures h h' acc schedule msg acc' server e :
  setup h = inl h' ->
  Gather h acc schedule = Some (Some msg, acc') ->
  server ∈ Servers h -> ending_of h server = Done (Some e) ->
  contains msg e.
Proof.
  intros Hsetup Hg Hin Hend.
  destruct (Gather_Some _ _ _ _ _ _ Hsetup Hg)
    as (_ & _ & _ & _ & errorStrings & Hperm & Hres).
  assert (e ∈ errorStrings) as He.
  { rewrite Hperm. apply failures_elem_of. by exists server. }
  unfold collect in Hres. case_decide; [discriminate|]. injection Hres as ->.
  by apply strings_Join_contains.
Qed.

(** X18. With at most one failing server the result of [Gather] does not
    depend on the schedule: nil when none fails, and otherwise an error
    whose message is that of the failing server, as it is. *)
Theorem Gather_one_failure h h' acc schedule result acc' :
  setup h = inl h' ->
  (length (failures h (Servers h)) <= 1)%nat ->
  Gather h acc schedule = Some (result, acc') ->
  result = head (failures h (Servers h)).
Proof.
  intros Hsetup Hlen Hg.
  destruct (Gather_Some _ _ _ _ _ _ Hsetup Hg)
    as (_ & _ & _ & _ & errorStrings & Hperm & ->).
  destruct (failures h (Servers h)) as [|e [|e' l]]; simpl in Hlen; [| |lia].
  - by apply Permutation_nil_r in Hperm as ->.
  - by apply Permutation_singleton_r in Hperm as ->.
Qed.

(** X19. The client is set up once: after a [Gather] that got past the
    set-up, the client is configured, a later [Gather] does not load the
    TLS configuration again, and it behaves as the first one did. *)
Theorem setup_once h h' :
  setup h = inl h' ->
  is_Some (HTTPClient_get (client h')) /\
  setup h' = inl h' /\
  forall acc schedule, Gather h' acc schedule = Gather h acc schedule.
Proof.
  intros Hsetup.
  assert (is_Some (HTTPClient_get (client h')) /\ setup h' = inl h') as [Hcl Hagain].
  { revert Hsetup. unfold setup.
    destruct (HTTPClient_get (client h)) as [cl|] eqn:Hget.
    - intros [= <-]. by rewrite Hget.
    - destruct (GetTLSConfig _ _ _ _) as [tlsCfg [err|]]; [discriminate|].
      by intros [= <-]. }
  split; [done|]. split; [done|].
  intros acc schedule. unfold Gather. by rewrite Hsetup, Hagain.
Qed.

(** X22. [Gather] fails before the fan-out exactly when no client is
    set yet and the TLS configuration cannot be loaded; it then returns
    the error of [GetTLSConfig] under every schedule and leaves the
    accumulator as it is. With a client already set the TLS options are
    not looked at. *)
Theorem Gather_tls_error h err :
  (setup h = inr err <->
   HTTPClient_get (client h) = None /\
   (GetTLSConfig (SSLCert h) (SSLKey h) (SSLCA h) (InsecureSkipVerify h)).2 = Some err) /\
  (setup h = inr err ->
   forall acc schedule, Gather h acc schedule = Some (Some err, acc)).
Proof.
  split.
  - unfold setup. destruct (HTTPClient_get (client h)) as [cl|].
    + split; [discriminate|]. by intros [? _].
    + destruct (GetTLSConfig _ _ _ _) as [tlsCfg [e|]]; simpl.
      * split; [by intros [= ->]|by intros [_ [= ->]]].
      * split; [discriminate|]. by intros [_ ?].
  - intros Hsetup acc schedule. unfold Gather. by rewrite Hsetup.
Qed.

(** *** The order of the points of one server *)

Lemma ordered_initial h acc0 : ordered h acc0 (initial h acc0).
Proof. exists []. split; [by rewrite app_nil_r|constructor]. Qed.

Lemma in_order_same h emitted g g' :
  g'.1 = g.1 -> remaining_points g' = remaining_points g ->
  in_order h emitted g -> in_order h emitted g'.
Proof. unfold in_order. by intros -> ->. Qed.

Lemma exec_ordered h acc0 a s s' :
  ordered h acc0 s -> exec h a s = Some s' -> ordered h acc0 s'.
Proof.
  intros (emitted & Hacc & Hall). unfold exec.
  destruct (crashed s); [discriminate|]. destruct a as [|i].
  - destruct (main_pc s) as [[|server rest]|r]; try discriminate.
    + case_decide; [|discriminate]. intros [= <-]. by exists emitted.
    + intros [= <-]. exists emitted. split; [done|]. simpl.
      apply Forall_app. split; [done|]. apply Forall_singleton.
      exists []. split; [done|apply sublist_nil_l].
  - destruct (goroutines s !! i) as [[server p]|] eqn:Hi; [|discriminate].
    pose proof (Forall_lookup_1 _ _ _ _ Hall Hi) as Hg.
    destruct p as [[|p points] ending|err| |].
    + destruct ending as [[err|]|msg]; intros [= <-].
      * exists emitted. split; [done|]. simpl. apply Forall_insert; [done|].
        by eapply in_order_same.
      * exists emitted. split; [done|]. simpl. apply Forall_insert; [done|].
        by eapply in_order_same.
      * by exists emitted.
    + intros [= <-]. exists (emitted ++ [p]). simpl.
      split; [by rewrite Hacc, app_assoc|].
      apply Forall_insert.
      * eapply Forall_impl; [exact Hall|]. intros g (added & Hpts & Hsub).
        exists added. split; [done|]. by apply sublist_inserts_r.
      * destruct Hg as (added & Hpts & Hsub). exists (added ++ [p]). split.
        -- unfold remaining_points in Hpts |- *. simpl in Hpts |- *.
           by rewrite Hpts, <- app_assoc.
        -- by apply sublist_app.
    + case_decide; [|discriminate]. intros [= <-].
      exists emitted. split; [done|]. simpl. apply Forall_insert; [done|].
      by eapply in_order_same.
    + intros [= <-].
      exists emitted. split; [done|]. simpl. apply Forall_insert; [done|].
      by eapply in_order_same.
    + discriminate.
Qed.

Lemma reachable_ordered h acc0 s : reachable h acc0 s -> ordered h acc0 s.
Proof.
  unfold reachable. intros Hrun.
  eapply (rtc_ind_r (ordered h acc0)); [|clear s Hrun|exact Hrun].
  - apply ordered_initial.
  - intros s s' _ [a Hexec] IH. by eapply exec_ordered.
Qed.

(** X20. Within what [Gather] has added when it returns, the points of
    each server are found in the order of the metrics of its response,
    however the points of different servers are interleaved. *)
Theorem Gather_keeps_order h h' acc schedule result acc' :
  setup h = inl h' ->
  Gather h acc schedule = Some (result, acc') ->
  exists emitted, acc' = acc ++ emitted /\
    forall server, server ∈ Servers h -> points_of h server `sublist_of` emitted.
Proof.
  intros Hsetup Hg.
  destruct (Gather_Some _ _ _ _ _ _ Hsetup Hg) as (Hpc & <- & Hservers & Hsame & _).
  assert (reachable h' acc (run h' schedule (initial h' acc))) as Hs
    by apply run_reachable, rtc_refl.
  destruct (reachable_ordered _ _ _ Hs) as (emitted & Hacc & Hall).
  destruct (returned_state h' acc _ result Hs Hpc) as (Hgs & Hfin & _).
  exists emitted. split; [done|]. intros server Hin.
  rewrite <- Hservers, <- Hgs in Hin.
  apply list_elem_of_fmap in Hin as [[server' p] [-> Hin]].
  rewrite Forall_forall in Hall, Hfin.
  destruct (Hall _ Hin) as (added & Hpts & Hsub). specialize (Hfin _ Hin).
  simpl in *. subst p. unfold remaining_points in Hpts. simpl in Hpts.
  rewrite app_nil_r in Hpts. destruct (setup_ending h h' server' Hsame) as [_ <-].
  by rewrite Hpts.
Qed.

End more.

Import Fake.

Example Gather_three_servers :
  Gather (plugin three_servers) [] (one_by_one 3 5) =
    Some (Some (unexpected_status namespace_url 500 +:+ nl +:+ invalid_server_URL bad_url),
          [metric_point "graylog" "12900" sample_metric]).
Proof. vm_compute. reflexivity. Qed.

Lemma Gather_message_holds_failures_witness :
  setup (plugin three_servers) = inl (configured three_servers) /\
  Gather (plugin three_servers) [] (one_by_one 3 5) =
    Some (Some (unexpected_status namespace_url 500 +:+ nl +:+ invalid_server_URL bad_url),
          [metric_point "graylog" "12900" sample_metric]) /\
  bad_url ∈ Servers (plugin three_servers) /\
  ending_of (plugin three_servers) bad_url = Done (Some (invalid_server_URL bad_url)) /\
  contains (unexpected_status namespace_url 500 +:+ nl +:+ invalid_server_URL bad_url)
           (invalid_server_URL bad_url).
Proof.
  assert (bad_url ∈ Servers (plugin three_servers)) as Hin
    by (do 2 apply list_elem_of_further; apply list_elem_of_here).
  assert (ending_of (plugin three_servers) bad_url =
            Done (Some (invalid_server_URL bad_url))) as Hend
    by (vm_compute; reflexivity).
  split; [reflexivity|]. split; [exact Gather_three_servers|]. split; [exact Hin|].
  split; [exact Hend|].
  exact (Gather_message_holds_failures (plugin three_servers) (configured three_servers) []
           (one_by_one 3 5) _ _ bad_url _ eq_refl Gather_three_servers Hin Hend).
Defined.

(** With two failing servers the order of the two messages follows the
    schedule. *)
Example Gather_other_order :
  Gather (plugin three_servers) []
    ([Main; Main; Main] ++ replicate 5 (Goroutine 2) ++ replicate 5 (Goroutine 1)
     ++ replicate 5 (Goroutine 0) ++ [Main]) =
    Some (Some (invalid_server_URL bad_url +:+ nl +:+ unexpected_status namespace_url 500),
          [metric_point "graylog" "12900" sample_metric]).
Proof. vm_compute. reflexivity. Qed.

Lemma Gather_one_failure_witness :
  setup (plugin two_servers) = inl (configured two_servers) /\
  (length (failures (plugin two_servers) (Servers (plugin two_servers))) <= 1)%nat /\
  Gather (plugin two_servers) [] (one_by_one 2 5) =
    Some (Some (unexpected_status namespace_url 500),
          [metric_point "graylog" "12900" sample_metric]) /\
  Some (unexpected_status namespace_url 500) =
    head (failures (plugin two_servers) (Servers (plugin two_servers))).
Proof.
  assert (length (failures (plugin two_servers) (Servers (plugin two_servers))) <= 1)%nat
    as Hlen by (vm_compute; lia).
  split; [reflexivity|]. split; [exact Hlen|]. split; [exact Examples.Gather_two_servers|].
  exact (Gather_one_failure (plugin two_servers) (configured two_servers) []
           (one_by_one 2 5) _ _ eq_refl Hlen Examples.Gather_two_servers).
Defined.

Lemma setup_once_witness :
  setup (plugin two_servers) = inl (configured two_servers) /\
  is_Some (HTTPClient_get (client (configured two_servers))) /\
  setup (configured two_servers) = inl (configured two_servers) /\
  forall acc schedule,
    Gather (configured two_servers) acc schedule = Gather (plugin two_servers) acc schedule.
Proof.
  split; [reflexivity|].
  apply (setup_once (plugin two_servers) (configured two_servers)). reflexivity.
Defined.

(** The first server answers with two metrics; the point of the second
    server is added between its two points. *)
Example Gather_interleaved :
  points_of (plugin pair_servers) pair_url =
    [metric_point "pair" "12900" sample_metric;
     metric_point "pair" "12900" second_metric] /\
  Gather (plugin pair_servers) [] interleaved =
    Some (None,
          [metric_point "pair" "12900" sample_metric;
           metric_point "graylog" "12900" sample_metric;
           metric_point "pair" "12900" second_metric]).
Proof. split; vm_compute; reflexivity. Qed.

Lemma Gather_keeps_order_witness :
  setup (plugin pair_servers) = inl (configured pair_servers) /\
  Gather (plugin pair_servers) [] interleaved =
    Some (None,
          [metric_point "pair" "12900" sample_metric;
           metric_point "graylog" "12900" sample_metric;
           metric_point "pair" "12900" second_metric]) /\
  exists emitted,
    [metric_point "pair" "12900" sample_metric;
     metric_point "graylog" "12900" sample_metric;
     metric_point "pair" "12900" second_metric] = [] ++ emitted /\
    forall server, server ∈ Servers (plugin pair_servers) ->
      points_of (plugin pair_servers) server `sublist_of` emitted.
Proof.
  split; [reflexivity|]. split; [exact (proj2 Gather_interleaved)|].
  exact (Gather_keeps_order (plugin pair_servers) (configured pair_servers) []
           interleaved _ _ eq_refl (proj2 Gather_interleaved)).
Defined.

End FanoutMore.
